(** * rep2ib: replication of Postgres tables into Iceberg

    A shallow embedding of the replication pipeline of rep2ib
    (helper.py, source/rdb.py, source/postgres.py, iceberg.py, main.py)
    and the properties of its query builder, schema introspection,
    batch extraction and destination write routing.

    Conventions of the embedding.
    - Python [str] is [string]; characters are 8-bit, and case conversion
      is the one of the ASCII letters.
    - A JSON object with optional keys is a record with [option] fields;
      [key in d] is a test for [Some].
    - A Python exception is a value of [PyExc]; code that may raise
      returns a [result].
    - Everything the program obtains from outside (the Postgres server,
      the files under resource/, the Iceberg catalog) is an explicit
      argument: a record of replies, or an oracle on the history of
      calls.  Log output is not part of the model. *)

From Stdlib Require Import List String Ascii ZArith Arith Bool Lia.
From Stdlib Require Import Numbers.DecimalString.
From Equations Require Import Equations.
Import ListNotations.
Open Scope string_scope.

Set Implicit Arguments.
Set Warnings "-abstract-large-number".

(* ------------------------------------------------------------------ *)
(** ** Python values, exceptions and string methods *)
(* ------------------------------------------------------------------ *)

Module Py.

(** The exceptions the program raises or catches by class. *)
Inductive PyExc : Type :=
| ValueError (msg : string)
| KeyError (key : string)
| TypeError
| UnboundLocalError
| NoSuchTableError
| TableAlreadyExistsError
| OtherError (msg : string).

Inductive result (A : Type) : Type :=
| Ok (a : A)
| Raise (e : PyExc).
Arguments Ok {A} a.
Arguments Raise {A} e.

Definition bind {A B} (r : result A) (k : A -> result B) : result B :=
  match r with
  | Ok a => k a
  | Raise e => Raise e
  end.

(** Scalar values found in the configuration document and in the rows the
    database driver returns. *)
Inductive PyVal : Type :=
| PyNone
| PyInt (z : Z)
| PyStr (s : string).

Definition PyVal_eqb (a b : PyVal) : bool :=
  match a, b with
  | PyNone, PyNone => true
  | PyInt x, PyInt y => Z.eqb x y
  | PyStr x, PyStr y => String.eqb x y
  | _, _ => false
  end.

Definition str_of_Z (z : Z) : string := NilEmpty.string_of_int (Z.to_int z).

(** [str(v)], as an f-string formats a value. *)
Definition format_val (v : PyVal) : string :=
  match v with
  | PyNone => "None"
  | PyInt z => str_of_Z z
  | PyStr s => s
  end.

Definition in_range (lo hi : nat) (c : ascii) : bool :=
  Nat.leb lo (nat_of_ascii c) && Nat.leb (nat_of_ascii c) hi.

(** [c.isspace()] on the code points below 256. *)
Definition isspace (c : ascii) : bool :=
  in_range 9 13 c || in_range 28 32 c
  || Nat.eqb (nat_of_ascii c) 133 || Nat.eqb (nat_of_ascii c) 160.

Definition lower_char (c : ascii) : ascii :=
  if in_range 65 90 c then ascii_of_nat (nat_of_ascii c + 32) else c.

Definition upper_char (c : ascii) : ascii :=
  if in_range 97 122 c then ascii_of_nat (nat_of_ascii c - 32) else c.

Fixpoint map_string (f : ascii -> ascii) (s : string) : string :=
  match s with
  | EmptyString => EmptyString
  | String c s' => String (f c) (map_string f s')
  end.

Definition lower : string -> string := map_string lower_char.
Definition upper : string -> string := map_string upper_char.

Fixpoint lstrip (s : string) : string :=
  match s with
  | EmptyString => EmptyString
  | String c s' => if isspace c then lstrip s' else s
  end.

Fixpoint rstrip (s : string) : string :=
  match s with
  | EmptyString => EmptyString
  | String c s' =>
      match rstrip s' with
      | EmptyString => if isspace c then EmptyString else String c EmptyString
      | r => String c r
      end
  end.

(** [s.strip()] *)
Definition strip (s : string) : string := rstrip (lstrip s).

(** [s.split(sep)] for a one-character separator: never the empty list. *)
Fixpoint split (sep : ascii) (s : string) : list string :=
  match s with
  | EmptyString => [EmptyString]
  | String c s' =>
      if Ascii.eqb c sep then EmptyString :: split sep s'
      else match split sep s' with
           | h :: t => String c h :: t
           | [] => [String c EmptyString]
           end
  end.

(** [sep.join(l)] *)
Definition join (sep : string) (l : list string) : string := String.concat sep l.

(** [any(p(c) for c in s)] *)
Fixpoint any_char (p : ascii -> bool) (s : string) : bool :=
  match s with
  | EmptyString => false
  | String c s' => p c || any_char p s'
  end.

(** [c in s], a character in a string used as a set of characters. *)
Definition char_in (s : string) (c : ascii) : bool :=
  any_char (Ascii.eqb c) s.

(** [x in l] on a collection of strings. *)
Definition str_in (x : string) (l : list string) : bool :=
  existsb (String.eqb x) l.

(** Truth value of a string: [if s:] *)
Definition truthy (s : string) : bool :=
  match s with
  | EmptyString => false
  | _ => true
  end.

(** A dict with string keys, in insertion order. *)
Fixpoint dict_get {V} (k : string) (d : list (string * V)) : option V :=
  match d with
  | [] => None
  | (k', v) :: d' => if String.eqb k k' then Some v else dict_get k d'
  end.

(** [d[k] = v] *)
Fixpoint dict_set {V} (k : string) (v : V) (d : list (string * V))
  : list (string * V) :=
  match d with
  | [] => [(k, v)]
  | (k', v') :: d' =>
      if String.eqb k k' then (k, v) :: d' else (k', v') :: dict_set k v d'
  end.

(** [dict(pairs)] *)
Definition dict_of {V} (pairs : list (string * V)) : list (string * V) :=
  fold_left (fun d kv => dict_set (fst kv) (snd kv) d) pairs [].

End Py.
Import Py.

(* ------------------------------------------------------------------ *)
(** ** helper.py *)
(* ------------------------------------------------------------------ *)

Module Helper.

(** [Table.AccessMode] *)
Inductive AccessMode : Type :=
| READONLY
| APPEND
| UPSERT
| OVERWRITE
| REPLACE.

Definition AccessMode_eqb (a b : AccessMode) : bool :=
  match a, b with
  | READONLY, READONLY | APPEND, APPEND | UPSERT, UPSERT
  | OVERWRITE, OVERWRITE | REPLACE, REPLACE => true
  | _, _ => false
  end.

(** [Table.AccessMode[name]]: lookup of a member by its name. *)
Definition AccessMode_of_name (name : string) : option AccessMode :=
  if String.eqb name "READONLY" then Some READONLY
  else if String.eqb name "APPEND" then Some APPEND
  else if String.eqb name "UPSERT" then Some UPSERT
  else if String.eqb name "OVERWRITE" then Some OVERWRITE
  else if String.eqb name "REPLACE" then Some REPLACE
  else None.

(** [class Table]: the attributes set by [__init__]; [columns] starts
    empty and is not used by the replication. *)
Record Table : Type := mkTable {
  namespace : string;
  name : string;
  access_mode : AccessMode
}.

(** [Table.access_mode_from_string] *)
Definition access_mode_from_string (mode : string) : result AccessMode :=
  match AccessMode_of_name (upper mode) with
  | Some m => Ok m
  | None => Raise (ValueError ("Invalid access mode string " ++ mode))
  end.

End Helper.

(* ------------------------------------------------------------------ *)
(** ** source/rdb.py *)
(* ------------------------------------------------------------------ *)

Module Rdb.
Import Helper.

Definition DEFAULT_BATCH_SIZE : nat := 10000.

(** The cursor descriptor of a table spec: [spec["cursor"]]. *)
Record CursorSpec : Type := mkCursor {
  field : string;
  operator : string;
  value : PyVal
}.

(** [spec["target"]] *)
Record TargetSpec : Type := mkTarget {
  target_namespace : string;
  target_name : option string;
  target_access_mode : option string
}.

(** One entry of [config["tables"]].  The batch size is a count of rows,
    a non-negative integer. *)
Record TableSpec : Type := mkSpec {
  spec_namespace : string;
  spec_name : string;
  spec_columns : option string;
  spec_filter_exp : option string;
  spec_cursor : option CursorSpec;
  spec_batch_size : option nat;
  spec_target : TargetSpec
}.

(** [self.spec["cursor"]["value"] = v]: the cursor key is present whenever
    the assignment is reached. *)
Definition set_cursor_value (spec : TableSpec) (v : PyVal) : TableSpec :=
  match spec_cursor spec with
  | Some c =>
      mkSpec (spec_namespace spec) (spec_name spec) (spec_columns spec)
             (spec_filter_exp spec)
             (Some (mkCursor (field c) (operator c) v))
             (spec_batch_size spec) (spec_target spec)
  | None => spec
  end.

(** The state of an [RDBTable] object.  [tbl_namespace] and [tbl_name] are
    the attributes of the [Table] base class; its access mode stays at the
    default [READONLY] and is never read. *)
Record RDBTable : Type := mkRDBTable {
  tbl_namespace : string;
  tbl_name : string;
  tbl_spec : TableSpec;
  tbl_schema : list (string * string);
  tbl_filter_exp : string;
  tbl_cursor_exp : string
}.

(** [RDBTable.__init__].  [validate] stands for the check of the spec
    against resource/rdb_table_schema.json. *)
Definition init (validate : TableSpec -> bool) (spec : TableSpec)
  : result RDBTable :=
  let namespace := strip (spec_namespace spec) in
  let name := strip (spec_name spec) in
  if negb (validate spec) then Raise (ValueError "Failed to validate the spec.")
  else
    let schema :=
      match spec_columns spec with
      | Some cols => map (fun i => (strip i, EmptyString)) (split "," cols)
      | None => [("*", EmptyString)]
      end in
    let filter_exp :=
      match spec_filter_exp spec with
      | Some f => strip f
      | None => EmptyString
      end in
    Ok (mkRDBTable namespace name spec schema filter_exp EmptyString).

(** [RDBTable.batch_size] *)
Definition batch_size (t : RDBTable) : nat :=
  match spec_batch_size (tbl_spec t) with
  | Some b => b
  | None => DEFAULT_BATCH_SIZE
  end.

(** [RDBTable.target] *)
Definition target (t : RDBTable) : result Table :=
  let namespace := target_namespace (spec_target (tbl_spec t)) in
  let name :=
    match target_name (spec_target (tbl_spec t)) with
    | Some n => n
    | None => tbl_name t
    end in
  bind (match target_access_mode (spec_target (tbl_spec t)) with
        | Some m => access_mode_from_string m
        | None => Ok OVERWRITE
        end)
       (fun access_mode => Ok (mkTable namespace name access_mode)).

(** [RDBTable.is_incremental] *)
Definition is_incremental (t : RDBTable) : bool :=
  match spec_cursor (tbl_spec t) with
  | Some _ => true
  | None => false
  end.

Definition set_cursor_exp (t : RDBTable) (e : string) : RDBTable :=
  mkRDBTable (tbl_namespace t) (tbl_name t) (tbl_spec t) (tbl_schema t)
             (tbl_filter_exp t) e.

Definition set_schema (t : RDBTable) (s : list (string * string)) : RDBTable :=
  mkRDBTable (tbl_namespace t) (tbl_name t) (tbl_spec t) s
             (tbl_filter_exp t) (tbl_cursor_exp t).

Definition set_spec (t : RDBTable) (s : TableSpec) : RDBTable :=
  mkRDBTable (tbl_namespace t) (tbl_name t) s (tbl_schema t)
             (tbl_filter_exp t) (tbl_cursor_exp t).

(** The statement before any predicate is added. *)
Definition base_query (t : RDBTable) : string :=
  let projection := join ", " (map fst (tbl_schema t)) in
  "SELECT " ++ projection ++ " FROM " ++ tbl_namespace t ++ "." ++ tbl_name t.

(** [RDBTable.query] *)
Definition query (t : RDBTable) : result string :=
  let query := base_query t in
  let where_clause := false in
  let '(query, where_clause) :=
    if truthy (tbl_filter_exp t)
    then (query ++ " WHERE (" ++ tbl_filter_exp t ++ ")", true)
    else (query, where_clause) in
  if is_incremental t then
    if negb (truthy (tbl_cursor_exp t))
    then Raise (ValueError "Incremental loading table with no cursor expression.")
    else
      let query := if negb where_clause then query ++ " WHERE "
                   else query ++ " AND " in
      Ok (query ++ "(" ++ tbl_cursor_exp t ++ ")")
  else Ok query.

End Rdb.

(* ------------------------------------------------------------------ *)
(** ** source/postgres.py *)
(* ------------------------------------------------------------------ *)

Module Postgres.
Import Helper Rdb.

Definition dquote : string := String (ascii_of_nat 34) EmptyString.
Definition nl : string := String (ascii_of_nat 10) EmptyString.

Fixpoint spaces (n : nat) : string :=
  match n with
  | O => EmptyString
  | S n' => String " " (spaces n')
  end.

(** [getattr(pa, factory)] applied to its arguments: a PyArrow data type,
    named by the factory that builds it. *)
Record PaType : Type := mkPaType {
  factory : string;
  factory_args : list Z
}.

Definition pa_string : PaType := mkPaType "string" [].
Definition pa_decimal128 (p s : Z) : PaType := mkPaType "decimal128" [p; s].

(** [pa.schema(fields)]: field names with their types, in order. *)
Definition PaSchema : Type := list (string * PaType).

(** One row of information_schema.columns as the metadata query selects
    it; the numeric columns are NULL for the types they do not apply to. *)
Record ColumnRow : Type := mkColumnRow {
  column_name : string;
  udt_name : string;
  numeric_precision : option Z;
  numeric_scale : option Z;
  datetime_precision : option Z
}.

(** A row of the replicated table, as the driver returns it. *)
Definition Row : Type := list PyVal.

(** A server-side cursor after [execute]: the names of the result
    columns, the rows not yet fetched, and the number of loop iterations
    that complete before the driver or the decoder raises ([None]: they
    never do). *)
Record ServerCursor : Type := mkServerCursor {
  description : list string;
  pending : list Row;
  fault : option nat
}.

(** The replies of the Postgres server, by statement text. *)
Record Database : Type := mkDatabase {
  keywords_reply : result (list string);
  columns_reply : string -> result (list ColumnRow);
  count_reply : string -> result (option (PyVal * PyVal));
  stream_reply : string -> result ServerCursor
}.

(** The files under resource/. *)
Record Resources : Type := mkResources {
  validate_spec : TableSpec -> bool;
  pg_pa_dt_mapping : option (list (string * string))
}.

(** The state of a [PGTable] object. *)
Record PGTable : Type := mkPGTable {
  rdb : RDBTable;
  reserved_keywords : list string;
  dt_mappings : list (string * string);
  pa_schema : PaSchema
}.

Definition special_characters : string :=
  " !" ++ dquote ++ "#$%&'()*+,./:;<=>?@[\]^`{|}~".

(** Whether [escape_column_name] takes its quoting branch. *)
Definition needs_escape (reserved : list string) (column_name : string) : bool :=
  str_in (lower column_name) reserved
  || any_char (char_in special_characters) column_name.

(** [PGTable.escape_column_name] *)
Definition escape_column_name (reserved : list string) (column_name : string)
  : string :=
  if needs_escape reserved column_name
  then dquote ++ column_name ++ dquote
  else column_name.

(** [int(x)] of a catalog value that may be NULL. *)
Definition int_of (x : option Z) : result Z :=
  match x with
  | Some z => Ok z
  | None => Raise TypeError
  end.

(** The body of the loop over the catalog rows in [update_table_spec]:
    the source expression with its Postgres type, and the PyArrow field. *)
Definition map_column (reserved : list string) (mappings : list (string * string))
  (row : ColumnRow) : result ((string * string) * (string * PaType)) :=
  let column_name := escape_column_name reserved (Postgres.column_name row) in
  let pa_column_name := Postgres.column_name row in
  let pg_data_type := udt_name row in
  bind
    (match dict_get pg_data_type mappings with
     | Some f => Ok (column_name, mkPaType f [])
     | None =>
       if str_in pg_data_type ["bit"; "varbit"; "bytea"; "uuid"; "json"; "jsonb"; "xml"]
       then Ok (column_name ++ "::text as " ++ column_name, pa_string)
       else if str_in pg_data_type ["money"]
       then Ok (column_name ++ "::numeric(21,4) as " ++ column_name,
                pa_decimal128 21 4)
       else if str_in pg_data_type ["numeric"]
       then bind (int_of (numeric_precision row)) (fun n_precision =>
            bind (int_of (numeric_scale row)) (fun n_scale =>
            Ok (column_name, pa_decimal128 n_precision n_scale)))
       else if str_in pg_data_type ["date"]
       then Ok ("tochar(" ++ column_name ++ ", 'YYYY-MM-DD')::text as " ++ column_name,
                pa_string)
       else if str_in pg_data_type ["time"; "timez"; "timestamp"; "timestampz"]
       then Ok ("to_char(" ++ column_name ++ ", 'YYYY-MM-DD HH24:MI:SS.US') as "
                  ++ column_name, pa_string)
       else if str_in pg_data_type ["interval"]
       then Ok (column_name ++ "::text as " ++ column_name, pa_string)
       else Ok (column_name ++ "::text as " ++ column_name, pa_string)
     end)
    (fun '(column_name, pa_data_type) =>
       Ok ((column_name, pg_data_type), (pa_column_name, pa_data_type))).

(** The loop itself: it stops at the first row that raises. *)
Fixpoint map_columns (reserved : list string) (mappings : list (string * string))
  (rows : list ColumnRow)
  : result (list (string * string) * PaSchema) :=
  match rows with
  | [] => Ok ([], [])
  | row :: rows' =>
      bind (map_column reserved mappings row) (fun '(pg, pa) =>
      bind (map_columns reserved mappings rows') (fun '(pgs, pas) =>
      Ok (pg :: pgs, pa :: pas)))
  end.

(** The statement [update_table_spec] sends to the metadata catalog. *)
Definition columns_query (t : RDBTable) : string :=
  let head :=
    nl ++ spaces 12
    ++ "SELECT column_name, udt_name, numeric_precision, numeric_scale, datetime_precision"
    ++ nl ++ spaces 12 ++ "FROM information_schema.columns"
    ++ nl ++ spaces 12 ++ "WHERE table_schema = '" ++ tbl_namespace t
    ++ "' AND table_name = '" ++ tbl_name t ++ "'" in
  let tail := nl ++ spaces 12 ++ "ORDER BY ordinal_position" ++ nl ++ spaces 12 in
  if existsb (fun col => String.eqb "*" (fst col)) (tbl_schema t)
  then head ++ tail
  else
    let column_names :=
      join ", " (map (fun column => "'" ++ fst column ++ "'") (tbl_schema t)) in
    head ++ nl ++ spaces 12 ++ "AND column_name IN (" ++ column_names ++ ")" ++ tail.

(** The cursor predicate computed at the end of [update_table_spec]. *)
Definition cursor_expression (c : CursorSpec) : string :=
  let field := Rdb.field c in
  let op := operator c in
  let value :=
    match Rdb.value c with
    | PyStr s => "'" ++ s ++ "'"
    | v => format_val v
    end in
  if String.eqb field "xid"
  then "xmin::TEXT::BIGINT " ++ op ++ " " ++ value
  else dquote ++ field ++ dquote ++ " " ++ op ++ " " ++ value.

(** [PGTable.update_table_spec] *)
Definition update_table_spec (db : Database) (t : PGTable) : result PGTable :=
  bind (columns_reply db (columns_query (rdb t))) (fun rows =>
  bind (map_columns (reserved_keywords t) (dt_mappings t) rows)
       (fun '(pg_schema, pa_fields) =>
    let r := set_schema (rdb t) pg_schema in
    let r :=
      match spec_cursor (tbl_spec r) with
      | Some c => set_cursor_exp r (cursor_expression c)
      | None => r
      end in
    Ok (mkPGTable r (reserved_keywords t) (dt_mappings t) pa_fields))).

(** [PGTable.__init__] *)
Definition init (res : Resources) (db : Database) (spec : TableSpec)
  : result PGTable :=
  bind (Rdb.init (validate_spec res) spec) (fun r =>
    let reserved :=
      match keywords_reply db with
      | Ok words => words
      | Raise _ => []
      end in
    match pg_pa_dt_mapping res with
    | None => Raise (ValueError "Failed to load data type mapping.")
    | Some mappings => update_table_spec db (mkPGTable r reserved mappings [])
    end).

(** The statement of the pre-scan in [get_table_info]. *)
Definition table_info_query (t : RDBTable) : string :=
  match spec_cursor (tbl_spec t) with
  | Some c =>
      let agg :=
        if String.eqb (Rdb.field c) "xid" then "max(xmin::TEXT::BIGINT)"
        else "max(" ++ dquote ++ Rdb.field c ++ dquote ++ ")" in
      let query :=
        nl ++ spaces 28 ++ "SELECT COUNT(*) as table_size, " ++ agg
        ++ " AS target_value"
        ++ nl ++ spaces 28 ++ "FROM " ++ tbl_namespace t ++ "." ++ tbl_name t
        ++ nl ++ spaces 28 ++ "WHERE " ++ tbl_cursor_exp t in
      if truthy (tbl_filter_exp t)
      then query ++ " AND (" ++ tbl_filter_exp t ++ ")"
      else query
  | None =>
      let query :=
        nl ++ spaces 24 ++ "SELECT COUNT(*) as table_size, -1 AS target_value"
        ++ nl ++ spaces 24 ++ "FROM " ++ tbl_namespace t ++ "." ++ tbl_name t
        ++ nl ++ spaces 24 in
      if truthy (tbl_filter_exp t)
      then query ++ " WHERE " ++ tbl_filter_exp t
      else query
  end.

(** The dict [get_table_info] returns: [{"size": .., "target_value": ..}],
    or the empty dict when anything in its [try] block raised. *)
Record TableInfo : Type := mkTableInfo {
  size : PyVal;
  target_value : PyVal
}.

(** [PGTable.get_table_info] *)
Definition get_table_info (db : Database) (t : PGTable) : option TableInfo :=
  match count_reply db (table_info_query (rdb t)) with
  | Ok (Some (size, target_value)) => Some (mkTableInfo size target_value)
  | Ok None => None          (* [size] is unbound: caught *)
  | Raise _ => None
  end.

(** A [pa.Table] built from one chunk of rows: its schema and its rows,
    each a dict from column name to value, in the order of the chunk. *)
Record Batch : Type := mkBatch {
  batch_schema : PaSchema;
  batch_rows : list (list (string * PyVal))
}.

Definition num_rows (b : Batch) : nat := List.length (batch_rows b).

(** [cur.fetchmany(size=size)] on a server-side cursor: the next [size]
    rows, fewer at the end of the result, none after it. *)
Definition fetchmany (cur : ServerCursor) (size : nat)
  : result (list Row * ServerCursor) :=
  match fault cur with
  | Some O => Raise (OtherError "fetch failed")
  | f =>
      Ok (firstn size (pending cur),
          mkServerCursor (description cur) (skipn size (pending cur))
                         (option_map Nat.pred f))
  end.

(** The body of the streaming loop after a non-empty fetch. *)
Definition decode (schema : PaSchema) (col_names : list string)
  (rows : list Row) : Batch :=
  mkBatch schema (map (fun row => dict_of (combine col_names row)) rows).

(** How the streaming loop ended. *)
Inductive StreamEnd : Type :=
| Exhausted
| Broken (e : PyExc).

Definition yield (b : Batch) (p : list Batch * StreamEnd)
  : list Batch * StreamEnd :=
  (b :: fst p, snd p).

Definition inspect {A} (a : A) : {b : A | a = b} := exist _ a eq_refl.

(** The [while True] loop of [get_batches]: the batches it yields, in
    order, and how it ended. *)
Equations? stream_loop (schema : PaSchema) (bsize : nat) (cur : ServerCursor)
  : list Batch * StreamEnd by wf (List.length (pending cur)) lt :=
  stream_loop schema bsize cur with inspect (fetchmany cur bsize) => {
    | exist _ (Raise e) _ => ([], Broken e);
    | exist _ (Ok ([], _)) _ => ([], Exhausted);
    | exist _ (Ok (r :: rows, cur')) Heq =>
        yield (decode schema (description cur) (r :: rows))
              (stream_loop schema bsize cur') }.
Proof.
  clear stream_loop. revert Heq. unfold fetchmany. intros H.
  assert (E : firstn bsize (pending cur) = r :: rows
              /\ pending cur' = skipn bsize (pending cur)).
  { destruct (fault cur) as [[|k]|]; inversion H; subst; auto. }
  destruct E as [E1 E2]. rewrite E2.
  destruct bsize as [|n]; [discriminate|].
  destruct (pending cur) as [|x xs]; [discriminate|].
  simpl. pose proof (length_skipn n xs). lia.
Qed.

(** Which of its three closing log lines [get_batches] reached: no
    record was found, the streaming finished, or the [except] clause. *)
Inductive Ending : Type :=
| NoRecord
| Finished
| Failed (e : PyExc).

(** A run of the generator [get_batches] to its end: the batches it
    yielded, the table object afterwards, and how it ended. *)
Record Extraction : Type := mkExtraction {
  yielded : list Batch;
  after : PGTable;
  ending : Ending
}.

(** [self.spec["cursor"]["value"] = v] *)
Definition set_value (t : PGTable) (v : PyVal) : PGTable :=
  mkPGTable (set_spec (rdb t) (set_cursor_value (tbl_spec (rdb t)) v))
            (reserved_keywords t) (dt_mappings t) (pa_schema t).

(** [PGTable.get_batches], consumed to exhaustion as the loop of [main]
    does. *)
Definition get_batches (db : Database) (t : PGTable) : Extraction :=
  match get_table_info db t with
  | None => mkExtraction [] t (Failed (KeyError "size"))
  | Some table_info =>
      if PyVal_eqb (size table_info) (PyInt 0) then mkExtraction [] t NoRecord
      else
        match Rdb.query (rdb t) with
        | Raise e => mkExtraction [] t (Failed e)
        | Ok q =>
            match stream_reply db q with
            | Raise e => mkExtraction [] t (Failed e)
            | Ok cur =>
                let '(batches, fin) :=
                  stream_loop (pa_schema t) (batch_size (rdb t)) cur in
                match fin with
                | Broken e => mkExtraction batches t (Failed e)
                | Exhausted =>
                    if is_incremental (rdb t)
                    then mkExtraction batches
                                      (set_value t (target_value table_info))
                                      Finished
                    else mkExtraction batches t Finished
                end
            end
        end
  end.

End Postgres.

(* ------------------------------------------------------------------ *)
(** ** iceberg.py *)
(* ------------------------------------------------------------------ *)

Module Iceberg.
Import Postgres.

(** The operations the session performs on the outside world: the calls
    on the catalog and on a loaded table, and the write of a dump file. *)
Inductive Call : Type :=
| LoadTable (identifier : string)
| CreateTable (identifier : string) (schema : PaSchema)
| DropTable (identifier : string)
| TableAppend (identifier : string) (df : Batch)
| TableOverwrite (identifier : string) (df : Batch)
| DumpFile (path : string) (data : Batch).

(** A call with its outcome: [None] when it returned, [Some e] when it
    raised [e]. *)
Definition Event : Type := (Call * option PyExc)%type.

(** The calls so far, oldest first. *)
Definition Trace : Type := list Event.

(** The outside world: what the next call does, given the calls so far. *)
Definition World : Type := Trace -> Call -> option PyExc.

(** A method of the session: it extends the trace and returns or raises. *)
Definition IO (A : Type) : Type := Trace -> Trace * result A.

Definition ret {A} (a : A) : IO A := fun tr => (tr, Ok a).

Definition raise {A} (e : PyExc) : IO A := fun tr => (tr, Raise e).

Definition seq {A B} (m : IO A) (k : A -> IO B) : IO B :=
  fun tr =>
    match m tr with
    | (tr', Ok a) => k a tr'
    | (tr', Raise e) => (tr', Raise e)
    end.

(** [try: m  except ...: h e] *)
Definition try_except {A} (m : IO A) (h : PyExc -> IO A) : IO A :=
  fun tr =>
    match m tr with
    | (tr', Ok a) => (tr', Ok a)
    | (tr', Raise e) => h e tr'
    end.

(** [try: m  finally: f] *)
Definition try_finally {A} (m : IO A) (f : IO unit) : IO A :=
  fun tr =>
    match m tr with
    | (tr', r) =>
        match f tr' with
        | (tr'', Ok _) => (tr'', r)
        | (tr'', Raise e) => (tr'', Raise e)
        end
    end.

Definition call (w : World) (c : Call) : IO unit :=
  fun tr =>
    match w tr c with
    | None => ((tr ++ [(c, None)])%list, Ok tt)
    | Some e => ((tr ++ [(c, Some e)])%list, Raise e)
    end.

Declare Scope io_scope.
Delimit Scope io_scope with io.
Notation "m ;; k" := (seq m (fun _ => k))
  (at level 61, right associativity) : io_scope.
Open Scope io_scope.

Definition dump_path (table : string) : string :=
  "debug/" ++ table ++ "_error_sample.json".

(** [IBSession.create_table] *)
Definition create_table (w : World) (table : string) (schema : PaSchema)
  : IO unit :=
  try_except (call w (CreateTable table schema))
    (fun e => match e with
              | TableAlreadyExistsError => ret tt
              | _ => raise e
              end).

(** [IBSession.recreate_table] *)
Definition recreate_table (w : World) (table : string) (schema : PaSchema)
  : IO unit :=
  try_finally
    (try_except (call w (DropTable table))
       (fun e => match e with
                 | NoSuchTableError => ret tt
                 | _ => raise e
                 end))
    (create_table w table schema).

(** [IBSession.dump_table] *)
Definition dump_table (w : World) (table : string) (data : Batch) : IO unit :=
  try_except (call w (DumpFile (dump_path table) data)) (fun _ => ret tt).

(** The first [try] of [append_table] and of [overwrite_table]: load the
    table, creating it when it does not exist. *)
Definition load_or_create (w : World) (table : string) (data : Batch)
  : IO unit :=
  try_except (call w (LoadTable table))
    (fun e => match e with
              | NoSuchTableError =>
                  create_table w table (batch_schema data) ;;
                  call w (LoadTable table)
              | _ => raise e
              end).

(** [IBSession.append_table] *)
Definition append_table (w : World) (table : string) (data : Batch) : IO unit :=
  load_or_create w table data ;;
  try_except (call w (TableAppend table data))
    (fun _ => dump_table w table data).

(** [IBSession.overwrite_table] *)
Definition overwrite_table (w : World) (table : string) (data : Batch)
  : IO unit :=
  load_or_create w table data ;;
  try_except (call w (TableOverwrite table data))
    (fun _ => dump_table w table data).

(** [IBSession.upsert_table] *)
Definition upsert_table (w : World) (table : string) (data : Batch) : IO unit :=
  ret tt.

End Iceberg.

(* ------------------------------------------------------------------ *)
(** ** main.py *)
(* ------------------------------------------------------------------ *)

Module Main.
Import Helper Rdb Postgres Iceberg.

(** The body of the loop over the batches, with its [try] statement: the
    trace afterwards and the new value of the flag [overwrite].  Whatever
    the session raises is caught here. *)
Definition write_batch (w : World) (target_table_name : string)
  (upsert : bool) (overwrite : bool) (batch : Batch) (tr : Trace)
  : Trace * bool :=
  if overwrite then
    match overwrite_table w target_table_name batch tr with
    | (tr', Ok _) => (tr', false)
    | (tr', Raise _) => (tr', overwrite)
    end
  else
    match (if upsert then upsert_table w target_table_name batch
           else append_table w target_table_name batch) tr with
    | (tr', _) => (tr', overwrite)
    end.

(** [for batch in table.get_batches(): ...] *)
Fixpoint write_batches (w : World) (target_table_name : string)
  (upsert : bool) (overwrite : bool) (batches : list Batch) (tr : Trace)
  : Trace * bool :=
  match batches with
  | [] => (tr, overwrite)
  | batch :: rest =>
      let '(tr', overwrite') :=
        write_batch w target_table_name upsert overwrite batch tr in
      write_batches w target_table_name upsert overwrite' rest tr'
  end.

(** The body of the loop over the tables: the trace, the table spec as the
    iteration leaves it in the configuration, and whether it raised. *)
Definition replicate_table (res : Resources) (db : Database) (w : World)
  (spec : TableSpec) (tr : Trace) : Trace * TableSpec * result unit :=
  match Postgres.init res db spec with
  | Raise e => (tr, spec, Raise e)
  | Ok table =>
      match target (rdb table) with
      | Raise e => (tr, spec, Raise e)
      | Ok target_table =>
          let target_table_name :=
            namespace target_table ++ "." ++ name target_table in
          match (if AccessMode_eqb (access_mode target_table) REPLACE
                 then recreate_table w target_table_name (pa_schema table)
                 else ret tt) tr with
          | (tr1, Raise e) => (tr1, spec, Raise e)
          | (tr1, Ok _) =>
              let overwrite :=
                AccessMode_eqb (access_mode target_table) OVERWRITE in
              let upsert := AccessMode_eqb (access_mode target_table) UPSERT in
              let run := get_batches db table in
              (fst (write_batches w target_table_name upsert overwrite
                                  (yielded run) tr1),
               tbl_spec (rdb (after run)), Ok tt)
          end
      end
  end.

(** [for table in source.tables: ...] inside the [with] statement: the
    loop stops at the first table that raises.  The list returned is
    [config["tables"]] as [PGSource.__exit__] writes it to the
    configuration file, which it does on both ways out. *)
Fixpoint replicate_tables (res : Resources) (db : Database) (w : World)
  (tables : list TableSpec) (tr : Trace)
  : Trace * list TableSpec * result unit :=
  match tables with
  | [] => (tr, [], Ok tt)
  | spec :: rest =>
      match replicate_table res db w spec tr with
      | (tr', spec', Raise e) => (tr', spec' :: rest, Raise e)
      | (tr', spec', Ok _) =>
          let '(tr'', rest', r) := replicate_tables res db w rest tr' in
          (tr'', spec' :: rest', r)
      end
  end.

(** [main], from the configuration already loaded: the calls made on the
    destination and the tables written back to the configuration file. *)
Definition main (res : Resources) (db : Database) (w : World)
  (tables : list TableSpec) : Trace * list TableSpec * result unit :=
  replicate_tables res db w tables [].

End Main.

(* ------------------------------------------------------------------ *)
(** ** Properties *)
(* ------------------------------------------------------------------ *)

Import Helper Rdb Postgres Iceberg Main.

(** *** Vocabulary of the statements *)

(** The predicate as the specification words it, from the filter
    expression and the cursor expression of a table; an empty expression
    is one that does not exist. *)
Definition where_clause (filter cursor : string) : string :=
  match truthy filter, truthy cursor with
  | true, true => " WHERE (" ++ filter ++ ") AND (" ++ cursor ++ ")"
  | true, false => " WHERE (" ++ filter ++ ")"
  | false, true => " WHERE (" ++ cursor ++ ")"
  | false, false => EmptyString
  end.

(** A name between double quotes. *)
Definition quoted (column_name : string) : string :=
  dquote ++ column_name ++ dquote.

(** The characters of a string. *)
Definition chars (s : string) : list ascii := list_ascii_of_string s.

(** The condition under which the specification has a name quoted. *)
Definition must_quote (reserved : list string) (column_name : string) : Prop :=
  In (lower column_name) reserved
  \/ exists c, In c (chars column_name) /\ In c (chars special_characters).

(** The sizes of the chunks of [r] rows fetched [b] at a time: the full
    chunks, then what is left when [b] does not divide [r]. *)
Definition chunk_sizes (b r : nat) : list nat :=
  (repeat b (r / b) ++ (if Nat.eqb (r mod b) 0 then [] else [r mod b]))%list.

(** The rows of a server-side cursor as dicts, in the order the server
    returns them. *)
Definition decoded (cur : ServerCursor) : list (list (string * PyVal)) :=
  map (fun row => dict_of (combine (description cur) row)) (pending cur).

(** [spec["cursor"]["value"]], when the spec has a cursor. *)
Definition cursor_value (spec : TableSpec) : option PyVal :=
  option_map Rdb.value (spec_cursor spec).

(** The spec a table leaves in the configuration once its batches have
    been consumed. *)
Definition spec_after (res : Resources) (db : Database) (spec : TableSpec)
  : TableSpec :=
  match Postgres.init res db spec with
  | Ok t => tbl_spec (rdb (after (get_batches db t)))
  | Raise _ => spec
  end.

(** The calls that write a batch to a destination table. *)
Definition is_write (c : Call) : bool :=
  match c with
  | TableAppend _ _ | TableOverwrite _ _ => true
  | _ => false
  end.

Definition is_append (c : Call) : bool :=
  match c with
  | TableAppend _ _ => true
  | _ => false
  end.

Definition is_dump (c : Call) : bool :=
  match c with
  | DumpFile _ _ => true
  | _ => false
  end.

(** The batch writes of a trace, and its dump-file writes, in order. *)
Definition writes (tr : Trace) : list Call := filter is_write (map fst tr).
Definition dumps (tr : Trace) : list Call := filter is_dump (map fst tr).

(** The events of [tr'] that come after those of [tr]. *)
Definition new_events (tr tr' : Trace) : Trace := skipn (List.length tr) tr'.

(** A batch write of the trace raised. *)
Definition write_failed (tr : Trace) : Prop :=
  exists c e, In (c, Some e) tr /\ is_write c = true.

(** A world in which loading a table never raises. *)
Definition loads_ok (w : World) : Prop :=
  forall tr identifier, w tr (LoadTable identifier) = None.

(** The name of a member of [Table.AccessMode]. *)
Definition AccessMode_name (m : AccessMode) : string :=
  match m with
  | READONLY => "READONLY"
  | APPEND => "APPEND"
  | UPSERT => "UPSERT"
  | OVERWRITE => "OVERWRITE"
  | REPLACE => "REPLACE"
  end.

(** A string without white space at either end. *)
Definition trimmed (s : string) : Prop :=
  (forall c rest, s = String c rest -> isspace c = false)
  /\ (forall front c, s = front ++ String c EmptyString -> isspace c = false).

(** A server-side cursor whose loop raises at the given iteration. *)
Definition with_fault (cur : ServerCursor) (f : option nat) : ServerCursor :=
  mkServerCursor (description cur) (pending cur) f.

(** Two specs that differ at most in [cursor.value]. *)
Definition same_but_cursor_value (a b : TableSpec) : Prop :=
  spec_namespace a = spec_namespace b
  /\ spec_name a = spec_name b
  /\ spec_columns a = spec_columns b
  /\ spec_filter_exp a = spec_filter_exp b
  /\ spec_batch_size a = spec_batch_size b
  /\ spec_target a = spec_target b
  /\ option_map Rdb.field (spec_cursor a) = option_map Rdb.field (spec_cursor b)
  /\ option_map operator (spec_cursor a) = option_map operator (spec_cursor b).

(** The table a call writes a batch to. *)
Definition write_target (c : Call) : option string :=
  match c with
  | TableAppend identifier _ | TableOverwrite identifier _ => Some identifier
  | _ => None
  end.

(** Every write of a batch in the trace comes directly after a load of
    the same table that returned; [prev] is the event before the trace. *)
Fixpoint guarded (prev : option Event) (tr : Trace) : Prop :=
  match tr with
  | [] => True
  | (c, o) :: tr' =>
      (forall identifier,
         write_target c = Some identifier ->
         prev = Some (LoadTable identifier, None))
      /\ guarded (Some (c, o)) tr'
  end.

(** *** Inputs of the examples *)

Definition res0 : Resources :=
  mkResources (fun _ => true)
    (Some [("int4", "int32"); ("int8", "int64"); ("text", "string");
           ("varchar", "string"); ("bool", "bool_")]).

Definition spec_orders : TableSpec :=
  mkSpec " public" "orders " None (Some "active = true")
         (Some (mkCursor "id" ">" (PyInt 100))) (Some 3)
         (mkTarget "lake" None None).

Definition orders_columns : list ColumnRow :=
  [mkColumnRow "id" "int4" (Some 32%Z) (Some 0%Z) None;
   mkColumnRow "select" "text" None None None;
   mkColumnRow "created_on" "date" None None (Some 0%Z)].

Definition orders_rows : list Row :=
  map (fun i => [PyInt i; PyStr "x"; PyStr "2024-01-01"])
      [101; 102; 103; 104; 105; 106; 107]%Z.

Definition db0 : Database :=
  mkDatabase (Ok ["select"; "from"; "where"; "order"])
             (fun _ => Ok orders_columns)
             (fun _ => Ok (Some (PyInt 7, PyInt 107)))
             (fun _ => Ok (mkServerCursor ["id"; "select"; "created_on"]
                                          orders_rows None)).

(** Two rows are inserted after the pre-scan has counted five. *)
Definition db_late : Database :=
  mkDatabase (keywords_reply db0) (columns_reply db0)
             (fun _ => Ok (Some (PyInt 5, PyInt 105)))
             (stream_reply db0).

(** No row matches. *)
Definition db_empty : Database :=
  mkDatabase (keywords_reply db0) (columns_reply db0)
             (fun _ => Ok (Some (PyInt 0, PyNone)))
             (fun _ => Ok (mkServerCursor ["id"; "select"; "created_on"] [] None)).

(** Every call returns. *)
Definition w_ok : World := fun _ _ => None.

(** Every call returns, but the write of the second batch of a table. *)
Definition w_second_write_fails : World :=
  fun tr c =>
    if is_write c && Nat.eqb (List.length (writes tr)) 1
    then Some (OtherError "commit failed")
    else None.

(** The first call of the run, on a catalog not yet reachable, raises;
    every later call returns. *)
Definition w_first_call_fails : World :=
  fun tr c =>
    match tr with
    | [] => Some (OtherError "connection refused")
    | _ => None
    end.

(** The same table, replaced at each run, and written in append mode. *)
Definition spec_orders_replace : TableSpec :=
  mkSpec " public" "orders " None (Some "active = true")
         (Some (mkCursor "id" ">" (PyInt 100))) (Some 3)
         (mkTarget "lake" None (Some "replace")).

Definition spec_orders_overwrite : TableSpec :=
  mkSpec " public" "orders " None (Some "active = true")
         (Some (mkCursor "id" ">" (PyInt 100))) (Some 3)
         (mkTarget "lake" None (Some "overwrite")).

(** The batch of the rows of [orders_rows] with the given ids. *)
Definition orders_batch (ids : list Z) : Batch :=
  decode [("id", mkPaType "int32" []); ("select", pa_string);
          ("created_on", pa_string)]
         ["id"; "select"; "created_on"]
         (map (fun i => [PyInt i; PyStr "x"; PyStr "2024-01-01"]) ids).

(** The destination after the first batch of [orders] has been written. *)
Definition trace_after_first : Trace :=
  [(LoadTable "lake.orders", None);
   (TableOverwrite "lake.orders" (orders_batch [101; 102; 103]%Z), None)].

(** The driver raises at the second fetch. *)
Definition db_broken : Database :=
  mkDatabase (keywords_reply db0) (columns_reply db0) (count_reply db0)
             (fun _ => Ok (mkServerCursor ["id"; "select"; "created_on"]
                                          orders_rows (Some 1))).

(** A target with an access mode that is not one. *)
Definition spec_bad_mode : TableSpec :=
  mkSpec "public" "customers" None None None None
         (mkTarget "lake" None (Some "merge")).

(** The query of the reserved keywords is refused. *)
Definition db_no_keywords : Database :=
  mkDatabase (Raise (OtherError "permission denied")) (columns_reply db0)
             (count_reply db0) (stream_reply db0).


(** *** The predicate of the extraction statement *)

Lemma append_empty_r (s : string) : s ++ EmptyString = s.
Proof. induction s; simpl; congruence. Qed.

Lemma append_assoc (a b c : string) : (a ++ b) ++ c = a ++ b ++ c.
Proof. induction a; simpl; congruence. Qed.

Lemma truthy_false (s : string) : truthy s = false -> s = EmptyString.
Proof. destruct s; simpl; congruence. Qed.

(** A table that went through [update_table_spec] has a cursor expression
    exactly when it is incremental. *)
Lemma cursor_expression_truthy (c : CursorSpec) :
  truthy (cursor_expression c) = true.
Proof.
  unfold cursor_expression.
  destruct (String.eqb (Rdb.field c) "xid"); reflexivity.
Qed.

Lemma update_table_spec_cursor db t t' :
  update_table_spec db t = Ok t' ->
  truthy (tbl_cursor_exp (rdb t)) = false ->
  truthy (tbl_cursor_exp (rdb t')) = is_incremental (rdb t').
Proof.
  unfold update_table_spec. intros H Hc.
  destruct (columns_reply db _) as [rows|]; simpl in H; [|discriminate].
  destruct (map_columns _ _ rows) as [[pg pa]|]; simpl in H; [|discriminate].
  inversion H; subst; clear H. unfold is_incremental. simpl.
  destruct (spec_cursor (tbl_spec (rdb t))) as [c|] eqn:E; simpl; rewrite E.
  - apply cursor_expression_truthy.
  - exact Hc.
Qed.

Lemma init_resolved res db spec t :
  Postgres.init res db spec = Ok t ->
  truthy (tbl_cursor_exp (rdb t)) = is_incremental (rdb t).
Proof.
  unfold Postgres.init, Rdb.init. intros H.
  destruct (negb (validate_spec res spec)); simpl in H; [discriminate|].
  destruct (pg_pa_dt_mapping res); [|discriminate].
  eapply update_table_spec_cursor; [exact H|reflexivity].
Qed.

Lemma query_of_resolved (r : RDBTable) :
  truthy (tbl_cursor_exp r) = is_incremental r ->
  query r = Ok (base_query r ++ where_clause (tbl_filter_exp r) (tbl_cursor_exp r)).
Proof.
  intros H. unfold query, where_clause. rewrite <- H.
  generalize (base_query r). intros q.
  destruct (truthy (tbl_filter_exp r)), (truthy (tbl_cursor_exp r));
    cbn [negb]; rewrite ?append_assoc, ?append_empty_r; reflexivity.
Qed.

(** C2. The statement built for a resolved table is the base statement
    followed by [WHERE (filter) AND (cursor)], [WHERE (filter)],
    [WHERE (cursor)] or nothing, by which of the two expressions exist;
    and building the statement of an incremental table whose cursor
    expression is empty raises the configuration error. *)
Theorem query_predicate :
  forall res db spec t,
    Postgres.init res db spec = Ok t ->
    query (rdb t)
    = Ok (base_query (rdb t)
          ++ where_clause (tbl_filter_exp (rdb t)) (tbl_cursor_exp (rdb t)))
    /\ (forall r : RDBTable,
          is_incremental r = true ->
          tbl_cursor_exp r = EmptyString ->
          query r
          = Raise (ValueError "Incremental loading table with no cursor expression.")).
Proof.
  intros res db spec t H. split.
  - apply query_of_resolved. eapply init_resolved; eauto.
  - intros r Hi Hc. unfold query. rewrite Hi, Hc.
    destruct (truthy (tbl_filter_exp r)); reflexivity.
Qed.

Lemma query_predicate_witness :
  exists t,
    Postgres.init res0 db0 spec_orders = Ok t
    /\ query (rdb t)
       = Ok ("SELECT id, " ++ dquote ++ "select" ++ dquote
             ++ ", tochar(created_on, 'YYYY-MM-DD')::text as created_on"
             ++ " FROM public.orders"
             ++ " WHERE (active = true) AND (" ++ dquote ++ "id" ++ dquote
             ++ " > 100)").
Proof.
  destruct (Postgres.init res0 db0 spec_orders) as [t|e] eqn:E;
    [|vm_compute in E; discriminate].
  exists t. split; [reflexivity|].
  destruct (query_predicate res0 db0 spec_orders E) as [Q _].
  rewrite Q. vm_compute in E. inversion E; subst. vm_compute. reflexivity.
Defined.

(** *** The target of a table *)

Lemma init_names validate spec r :
  Rdb.init validate spec = Ok r ->
  tbl_spec r = spec /\ tbl_name r = strip (spec_name spec)
  /\ tbl_namespace r = strip (spec_namespace spec)
  /\ tbl_cursor_exp r = EmptyString.
Proof.
  unfold Rdb.init. destruct (negb (validate spec)); intros H; [discriminate|].
  inversion H; subst; simpl; auto.
Qed.

(** C10. When the target descriptor has no name, the target table takes
    the name of the source table; its namespace is the one of the target
    descriptor in every case; and the target is resolved whenever the
    access mode is left out. *)
Theorem target_name_defaults_to_source :
  forall validate spec r,
    Rdb.init validate spec = Ok r ->
    (forall tgt, target r = Ok tgt ->
       namespace tgt = target_namespace (spec_target spec)
       /\ (target_name (spec_target spec) = None ->
           name tgt = tbl_name r /\ name tgt = strip (spec_name spec)))
    /\ (target_access_mode (spec_target spec) = None ->
        exists tgt, target r = Ok tgt).
Proof.
  intros validate spec r H.
  destruct (init_names _ _ H) as (Hs & Hn & _ & _).
  unfold target. rewrite Hs. split.
  - intros tgt Ht.
    destruct (match target_access_mode (spec_target spec) with
              | Some m => access_mode_from_string m
              | None => Ok OVERWRITE
              end) as [m|e]; simpl in Ht; [|discriminate].
    inversion Ht; subst; simpl. split; [reflexivity|].
    intros Hnone. rewrite Hnone. auto.
  - intros Hnone. rewrite Hnone. simpl. eauto.
Qed.

Lemma target_name_defaults_to_source_witness :
  exists r tgt,
    Rdb.init (fun _ => true) spec_orders = Ok r
    /\ target r = Ok tgt
    /\ namespace tgt = "lake" /\ name tgt = "orders".
Proof.
  destruct (Rdb.init (fun _ => true) spec_orders) as [r|e] eqn:E;
    [|vm_compute in E; discriminate].
  destruct (target_name_defaults_to_source _ _ E) as [H1 H2].
  destruct (H2 eq_refl) as [tgt Ht].
  exists r, tgt. split; [reflexivity|]. split; [exact Ht|].
  destruct (H1 tgt Ht) as [Hns Hname]. split; [exact Hns|].
  destruct (Hname eq_refl) as [_ Hn]. exact Hn.
Defined.

(** *** Identifier escaping *)

Lemma str_in_In x l : str_in x l = true <-> In x l.
Proof.
  unfold str_in. rewrite existsb_exists. split.
  - intros (y & Hy & E). apply String.eqb_eq in E. subst. exact Hy.
  - intros H. exists x. split; [exact H|apply String.eqb_refl].
Qed.

Lemma any_char_exists p s :
  any_char p s = true <-> exists c, In c (chars s) /\ p c = true.
Proof.
  induction s as [|a s IH]; simpl.
  - split; [discriminate|intros (c & [] & _)].
  - rewrite orb_true_iff, IH. split.
    + intros [H|(c & Hc & Hp)]; [exists a|exists c]; auto.
    + intros (c & [E|Hc] & Hp); [subst; auto|right; eauto].
Qed.

Lemma char_in_In s c : char_in s c = true <-> In c (chars s).
Proof.
  unfold char_in. rewrite any_char_exists. split.
  - intros (d & Hd & E). apply Ascii.eqb_eq in E. subst. exact Hd.
  - intros H. exists c. split; [exact H|apply Ascii.eqb_refl].
Qed.

Lemma needs_escape_must_quote reserved column_name :
  needs_escape reserved column_name = true <-> must_quote reserved column_name.
Proof.
  unfold needs_escape, must_quote.
  rewrite orb_true_iff, str_in_In, any_char_exists.
  split; (intros [H|(c & Hc & Hs)]; [left; exact H|right; exists c]);
    (split; [exact Hc|apply char_in_In; exact Hs]).
Qed.

Lemma length_append (a b : string) :
  String.length (a ++ b) = String.length a + String.length b.
Proof. induction a; simpl; congruence. Qed.

Lemma quoted_neq column_name : quoted column_name <> column_name.
Proof.
  intros H. apply (f_equal String.length) in H.
  unfold quoted in H. rewrite !length_append in H. simpl in H. lia.
Qed.

Lemma chars_append (a b : string) : chars (a ++ b) = (chars a ++ chars b)%list.
Proof. unfold chars. induction a; simpl; congruence. Qed.

Lemma quoted_needs_escape reserved column_name :
  needs_escape reserved (quoted column_name) = true.
Proof.
  apply needs_escape_must_quote. right. exists (ascii_of_nat 34). split.
  - unfold quoted. rewrite chars_append. apply in_or_app. left.
    simpl. auto.
  - apply char_in_In. reflexivity.
Qed.

(** C6, as the code has it.  A name is quoted when it is, in lower case,
    a reserved keyword, or has a character of the set of special
    characters, and is left as it is otherwise; escaping twice gives the
    result of escaping once exactly for the names that are left as they
    are. *)
Theorem escape_column_name_quotes :
  forall reserved column_name,
    (must_quote reserved column_name ->
     escape_column_name reserved column_name = quoted column_name)
    /\ (~ must_quote reserved column_name ->
        escape_column_name reserved column_name = column_name)
    /\ (escape_column_name reserved (escape_column_name reserved column_name)
        = escape_column_name reserved column_name
        <-> ~ must_quote reserved column_name).
Proof.
  intros reserved column_name.
  rewrite <- needs_escape_must_quote.
  unfold escape_column_name at 1 2 4 5.
  destruct (needs_escape reserved column_name) eqn:E.
  - split; [reflexivity|]. split; [intros H; exfalso; auto|].
    fold (quoted column_name). unfold escape_column_name.
    rewrite quoted_needs_escape. fold (quoted (quoted column_name)).
    split; [intros H; exfalso; exact (quoted_neq H)|intros H; exfalso; auto].
  - split; [discriminate|]. split; [reflexivity|].
    unfold escape_column_name. rewrite E. split; [discriminate|reflexivity].
Qed.

Lemma escape_column_name_quotes_witness :
  escape_column_name ["select"] "SELECT" = quoted "SELECT"
  /\ escape_column_name ["select"] "order date" = quoted "order date"
  /\ escape_column_name ["select"] "order_id" = "order_id".
Proof.
  split; [|split].
  - apply (escape_column_name_quotes ["select"] "SELECT").
    left. simpl. auto.
  - apply (escape_column_name_quotes ["select"] "order date").
    right. exists " "%char. split; simpl; auto 10.
  - apply (escape_column_name_quotes ["select"] "order_id").
    rewrite <- needs_escape_must_quote. vm_compute. discriminate.
Defined.

(** Escaping is not idempotent: the quotes of an escaped name are special
    characters, so that escaping it again quotes it again. *)
Lemma escape_column_name_not_idempotent :
  escape_column_name ["select"] "select" = quoted "select"
  /\ escape_column_name ["select"] (escape_column_name ["select"] "select")
     = quoted (quoted "select")
  /\ escape_column_name ["select"] (escape_column_name ["select"] "select")
     <> escape_column_name ["select"] "select".
Proof.
  split; [reflexivity|]. split; [reflexivity|].
  intros H. vm_compute in H. discriminate.
Qed.

(** *** The mapping of a date column *)

(** C9, at a column [created_on] of type [date]: the canonical type is
    [string], and the source expression calls a function [tochar], while
    the expression of a timestamp column calls [to_char]. *)
Theorem date_column_rewrite :
  map_column (["select"]) [("int4", "int32")]
             (mkColumnRow "created_on" "date" None None (Some 0%Z))
  = Ok (("tochar(created_on, 'YYYY-MM-DD')::text as created_on", "date"),
        ("created_on", pa_string))
  /\ map_column (["select"]) [("int4", "int32")]
                (mkColumnRow "created_at" "timestamp" None None (Some 6%Z))
     = Ok (("to_char(created_at, 'YYYY-MM-DD HH24:MI:SS.US') as created_at",
            "timestamp"),
           ("created_at", pa_string)).
Proof. split; reflexivity. Qed.

(** *** Batches *)

(** Resolving a table leaves its spec as the configuration has it. *)
Lemma init_spec res db spec t :
  Postgres.init res db spec = Ok t -> tbl_spec (rdb t) = spec.
Proof.
  unfold Postgres.init, update_table_spec.
  destruct (Rdb.init (validate_spec res) spec) as [r0|] eqn:E0;
    simpl; [|discriminate].
  destruct (init_names _ _ E0) as (Hs0 & _).
  destruct (pg_pa_dt_mapping res); [|discriminate]. simpl.
  destruct (columns_reply db _); simpl; [|discriminate].
  destruct (map_columns _ _ _) as [[pg pa]|]; simpl; [|discriminate].
  intros H. inversion H; subst; clear H. simpl.
  destruct (spec_cursor (tbl_spec r0)); reflexivity.
Qed.


Lemma stream_loop_unfold schema b cur :
  stream_loop schema b cur
  = match fetchmany cur b with
    | Raise e => ([], Broken e)
    | Ok ([], _) => ([], Exhausted)
    | Ok (r :: rows, cur') =>
        yield (decode schema (description cur) (r :: rows))
              (stream_loop schema b cur')
    end.
Proof.
  funelim (stream_loop schema b cur);
    match goal with E : fetchmany _ _ = _ |- _ => rewrite E end; reflexivity.
Qed.

Lemma chunk_sizes_0 b : 0 < b -> chunk_sizes b 0 = [].
Proof.
  intros Hb. unfold chunk_sizes.
  rewrite Nat.Div0.div_0_l, Nat.Div0.mod_0_l. reflexivity.
Qed.

Lemma chunk_sizes_step b r :
  0 < b -> 0 < r -> chunk_sizes b r = Nat.min b r :: chunk_sizes b (r - b).
Proof.
  intros Hb Hr. unfold chunk_sizes.
  destruct (Nat.lt_ge_cases r b) as [Hlt|Hge].
  - rewrite (Nat.div_small r b), (Nat.mod_small r b) by lia.
    replace (r - b) with 0 by lia.
    rewrite Nat.Div0.div_0_l, Nat.Div0.mod_0_l.
    destruct (Nat.eqb_spec r 0); [lia|]. simpl. f_equal. lia.
  - assert (E : r = (r - b) + 1 * b) by lia.
    assert (Hd : r / b = S ((r - b) / b)).
    { rewrite E at 1. rewrite Nat.div_add by lia. lia. }
    assert (Hm : r mod b = (r - b) mod b).
    { rewrite E at 1. apply Nat.Div0.mod_add. }
    rewrite Hd, Hm. simpl. f_equal. lia.
Qed.

Lemma chunk_sizes_length b r :
  0 < b -> List.length (chunk_sizes b r) = (r + b - 1) / b.
Proof.
  intros Hb. unfold chunk_sizes.
  rewrite length_app, repeat_length.
  pose proof (Nat.div_mod_eq r b) as E.
  pose proof (Nat.mod_upper_bound r b ltac:(lia)) as Hm.
  destruct (Nat.eqb_spec (r mod b) 0) as [Z|NZ]; simpl.
  - apply Nat.div_unique with (r := b - 1); nia.
  - apply Nat.div_unique with (r := r mod b - 1); nia.
Qed.

(** A stream without a fault runs to exhaustion, in chunks. *)
Lemma stream_loop_chunks schema b :
  0 < b ->
  forall n cur,
    List.length (pending cur) <= n -> fault cur = None ->
    snd (stream_loop schema b cur) = Exhausted
    /\ map num_rows (fst (stream_loop schema b cur))
       = chunk_sizes b (List.length (pending cur))
    /\ List.concat (map batch_rows (fst (stream_loop schema b cur))) = decoded cur.
Proof.
  intros Hb n. induction n as [|n IH]; intros cur Hn Hf.
  - rewrite stream_loop_unfold. unfold fetchmany. rewrite Hf.
    unfold decoded.
    destruct (pending cur) as [|x xs]; [|simpl in Hn; lia].
    rewrite firstn_nil. simpl. rewrite chunk_sizes_0 by lia. auto.
  - rewrite stream_loop_unfold. unfold fetchmany. rewrite Hf.
    destruct (firstn b (pending cur)) as [|r rows] eqn:F.
    + assert (E : pending cur = []).
      { destruct (pending cur); [reflexivity|].
        destruct b; [lia|discriminate]. }
      unfold decoded. rewrite E. simpl. rewrite chunk_sizes_0 by lia. auto.
    + assert (Hpos : 0 < List.length (pending cur)).
      { destruct (pending cur) eqn:P; [|simpl; lia].
        rewrite firstn_nil in F. discriminate. }
      set (cur' := mkServerCursor _ _ _).
      assert (Hlen : List.length (pending cur') <= n).
      { subst cur'. simpl. rewrite length_skipn. lia. }
      destruct (IH cur' Hlen eq_refl) as (E1 & E2 & E3).
      unfold yield. simpl fst. simpl snd. split; [exact E1|]. split.
      * rewrite map_cons, E2. unfold num_rows, decode. cbn [batch_rows].
        rewrite length_map, <- F, length_firstn.
        subst cur'. simpl pending. rewrite length_skipn.
        symmetry. apply chunk_sizes_step; lia.
      * rewrite map_cons. cbn [List.concat]. rewrite E3.
        unfold decoded, decode. cbn [batch_rows].
        subst cur'. cbn [pending description].
        rewrite <- F, <- map_app, firstn_skipn. reflexivity.
Qed.

(** C8. With batch size [b] (10,000 when the spec has none) and a result
    of [r] rows that the pre-scan counted and the driver streams without
    an error, the batches number [ceil(r/b)], their sizes are [b] for
    each full chunk and then [r mod b] when it is not zero, and their
    rows are the rows of the result in the order of the server. *)
Theorem batches_are_chunks :
  forall res db spec t q cur info,
    Postgres.init res db spec = Ok t ->
    query (rdb t) = Ok q ->
    stream_reply db q = Ok cur ->
    fault cur = None ->
    get_table_info db t = Some info ->
    size info = PyInt (Z.of_nat (List.length (pending cur))) ->
    0 < batch_size (rdb t) ->
    let b := batch_size (rdb t) in
    let r := List.length (pending cur) in
    let batches := yielded (get_batches db t) in
    b = match spec_batch_size spec with Some n => n | None => 10000 end
    /\ List.length batches = (r + b - 1) / b
    /\ map num_rows batches = chunk_sizes b r
    /\ List.concat (map batch_rows batches) = decoded cur.
Proof.
  intros res db spec t q cur info Hinit Hq Hs Hf Hinfo Hsize Hb b r batches.
  pose proof (init_spec _ _ _ Hinit) as Hspec.
  split.
  { subst b. unfold batch_size. rewrite Hspec. reflexivity. }
  assert (G : map num_rows batches = chunk_sizes b r
              /\ List.concat (map batch_rows batches) = decoded cur).
  { subst batches. unfold get_batches. rewrite Hinfo, Hsize.
    destruct (stream_loop_chunks (pa_schema t) Hb (n := r) cur (le_n _) Hf)
      as (E1 & E2 & E3).
    destruct (PyVal_eqb (PyInt (Z.of_nat (List.length (pending cur)))) (PyInt 0))
      eqn:Z0.
    - simpl in Z0. apply Z.eqb_eq in Z0.
      assert (R0 : r = 0) by (subst r; lia).
      simpl. rewrite R0. rewrite chunk_sizes_0 by exact Hb.
      unfold decoded. subst r.
      destruct (pending cur); [auto|discriminate].
    - rewrite Hq, Hs.
      destruct (stream_loop (pa_schema t) (batch_size (rdb t)) cur)
        as [bs fin].
      simpl in E1, E2, E3. subst fin.
      destruct (is_incremental (rdb t)); simpl; auto. }
  destruct G as [G1 G2]. split; [|auto].
  rewrite <- (length_map num_rows), G1. apply chunk_sizes_length. exact Hb.
Qed.

Lemma batches_are_chunks_witness :
  exists t,
    Postgres.init res0 db0 spec_orders = Ok t
    /\ List.length (yielded (get_batches db0 t)) = 3
    /\ map num_rows (yielded (get_batches db0 t)) = [3; 3; 1]
    /\ List.concat (map batch_rows (yielded (get_batches db0 t)))
       = map (fun row => dict_of (combine ["id"; "select"; "created_on"] row))
             orders_rows.
Proof.
  destruct (Postgres.init res0 db0 spec_orders) as [t|e] eqn:E;
    [|vm_compute in E; discriminate].
  exists t. split; [reflexivity|].
  pose proof E as E'. vm_compute in E'. inversion E' as [Et]. clear E'.
  assert (Hq : exists q, query (rdb t) = Ok q).
  { rewrite <- Et. eexists. reflexivity. }
  destruct Hq as [q Hq].
  assert (Hb : 0 < batch_size (rdb t)).
  { rewrite <- Et. vm_compute. lia. }
  destruct (@batches_are_chunks res0 db0 spec_orders t q
              (mkServerCursor ["id"; "select"; "created_on"] orders_rows None)
              (mkTableInfo (PyInt 7) (PyInt 107))
              E Hq eq_refl eq_refl eq_refl eq_refl Hb)
    as (_ & L & S & C).
  rewrite Et. split; [|split].
  - rewrite L. rewrite <- Et. reflexivity.
  - rewrite S. rewrite <- Et. reflexivity.
  - rewrite C. reflexivity.
Defined.

(** *** Traces of the destination *)

Open Scope list_scope.

Lemma writes_app (a b : Trace) : writes (a ++ b) = (writes a ++ writes b)%list.
Proof. unfold writes. rewrite map_app, filter_app. reflexivity. Qed.

Lemma dumps_app (a b : Trace) : dumps (a ++ b) = (dumps a ++ dumps b)%list.
Proof. unfold dumps. rewrite map_app, filter_app. reflexivity. Qed.

Lemma new_events_app (tr new : Trace) : new_events tr (tr ++ new) = new.
Proof.
  unfold new_events. rewrite skipn_app, skipn_all, Nat.sub_diag. reflexivity.
Qed.

Lemma write_failed_app (a b : Trace) :
  write_failed (a ++ b) -> write_failed a \/ write_failed b.
Proof.
  intros (c & e & Hin & Hw). apply in_app_or in Hin.
  destruct Hin; [left|right]; exists c, e; auto.
Qed.

Lemma no_writes_not_failed (tr : Trace) : writes tr = [] -> ~ write_failed tr.
Proof.
  intros Hnil (c & e & Hin & Hw).
  assert (Hc : In c (writes tr)).
  { unfold writes. apply filter_In. split; [|exact Hw].
    apply in_map_iff. exists (c, Some e). auto. }
  rewrite Hnil in Hc. exact Hc.
Qed.

Lemma create_table_run w table schema tr :
  create_table w table schema tr
  = ((tr ++ [(CreateTable table schema, w tr (CreateTable table schema))])%list,
     match w tr (CreateTable table schema) with
     | None | Some TableAlreadyExistsError => Ok tt
     | Some e => Raise e
     end).
Proof.
  unfold create_table, try_except, call, ret, raise.
  destruct (w tr (CreateTable table schema)) as [[]|]; reflexivity.
Qed.

(** Recreating a table drops it and creates it, whatever the drop does. *)
Lemma recreate_table_run w table schema tr :
  exists o1 o2,
    fst (recreate_table w table schema tr)
    = (tr ++ [(DropTable table, o1); (CreateTable table schema, o2)])%list.
Proof.
  unfold recreate_table, try_finally, try_except, call, ret, raise.
  destruct (w tr (DropTable table)) as [e|] eqn:D.
  - exists (Some e).
    exists (w (tr ++ [(DropTable table, Some e)])%list (CreateTable table schema)).
    destruct e; rewrite create_table_run;
      destruct (w _ (CreateTable table schema)) as [[]|];
      simpl; rewrite <- app_assoc; reflexivity.
  - exists None.
    exists (w (tr ++ [(DropTable table, None)])%list (CreateTable table schema)).
    rewrite create_table_run;
      destruct (w _ (CreateTable table schema)) as [[]|];
      simpl; rewrite <- app_assoc; reflexivity.
Qed.

Lemma dump_table_run w table data tr :
  dump_table w table data tr
  = ((tr ++ [(DumpFile (dump_path table) data,
              w tr (DumpFile (dump_path table) data))])%list, Ok tt).
Proof.
  unfold dump_table, try_except, call, ret.
  destruct (w tr (DumpFile (dump_path table) data)); reflexivity.
Qed.

(** The second [try] of [append_table] and [overwrite_table]: one write,
    and one dump when the write raised; it never raises. *)
Lemma attempt_run w c table data tr :
  try_except (call w c) (fun _ => dump_table w table data) tr
  = match w tr c with
    | None => ((tr ++ [(c, None)])%list, Ok tt)
    | Some e =>
        ((tr ++ [(c, Some e);
                 (DumpFile (dump_path table) data,
                  w (tr ++ [(c, Some e)])%list
                    (DumpFile (dump_path table) data))])%list, Ok tt)
    end.
Proof.
  unfold try_except, call.
  destruct (w tr c) as [e|]; [|reflexivity].
  rewrite dump_table_run, <- app_assoc. reflexivity.
Qed.

(** The first [try]: it begins with a load of the table, makes no write
    and no dump, and only loads when loading never raises. *)
Lemma load_or_create_run w table data tr :
  exists pre r,
    load_or_create w table data tr = ((tr ++ pre)%list, r)
    /\ writes pre = [] /\ dumps pre = []
    /\ (exists o rest, pre = (LoadTable table, o) :: rest)
    /\ (loads_ok w -> r = Ok tt)
    /\ (forall e, r = Raise e -> ~ loads_ok w).
Proof.
  unfold load_or_create, try_except, seq, call, raise.
  destruct (w tr (LoadTable table)) as [e|] eqn:L1.
  - assert (NL : ~ loads_ok w).
    { intros H. rewrite H in L1. discriminate. }
    clear L1.
    destruct e;
      try (eexists [_], _; split; [reflexivity|];
           repeat split; eauto; intros H; exfalso; auto).
    rewrite create_table_run.
    destruct (w _ (CreateTable _ _)) as [[]|]; cbn;
      try (destruct (w _ (LoadTable table)) as [?|]);
      rewrite <- ?app_assoc; cbn;
      (eexists _, _; split; [reflexivity|];
       repeat split; eauto; intros H; exfalso; auto).
  - eexists [_], _. split; [reflexivity|].
    repeat split; eauto. discriminate.
Qed.

(** One session write: what [append_table] and [overwrite_table] do, for
    the write call [c] of each. *)
Lemma session_write_run w c table data tr :
  is_write c = true ->
  exists pre,
    writes pre = [] /\ dumps pre = []
    /\ (exists o rest, pre = (LoadTable table, o) :: rest)
    /\ ((exists e,
           seq (load_or_create w table data)
               (fun _ => try_except (call w c) (fun _ => dump_table w table data))
               tr = ((tr ++ pre)%list, Raise e))
         /\ ~ loads_ok w
        \/ seq (load_or_create w table data)
               (fun _ => try_except (call w c) (fun _ => dump_table w table data))
               tr = ((tr ++ pre ++ [(c, None)])%list, Ok tt)
        \/ exists e o,
             seq (load_or_create w table data)
                 (fun _ => try_except (call w c) (fun _ => dump_table w table data))
                 tr
             = ((tr ++ pre ++ [(c, Some e);
                               (DumpFile (dump_path table) data, o)])%list,
                Ok tt)).
Proof.
  intros Hc.
  destruct (load_or_create_run w table data tr)
    as (pre & r & Hrun & Hw & Hd & Hhd & Hok & Hraise).
  exists pre. repeat (split; [assumption|]).
  unfold seq. rewrite Hrun. destruct r as [u|e].
  - right. rewrite attempt_run.
    destruct (w (tr ++ pre)%list c) as [e|].
    + right. eexists e, _. rewrite <- app_assoc. reflexivity.
    + left. rewrite <- app_assoc. reflexivity.
  - left. split; [eauto|]. eapply Hraise. reflexivity.
Qed.

(** One turn of the loop over the batches. *)
Lemma write_batch_cases w tn up ow b tr :
  (ow = false /\ up = true /\ write_batch w tn up ow b tr = (tr, false))
  \/ ((ow = true \/ up = false)
      /\ exists pre,
          writes pre = [] /\ dumps pre = []
          /\ (exists o rest, pre = (LoadTable tn, o) :: rest)
          /\ let c := if ow then TableOverwrite tn b else TableAppend tn b in
             (write_batch w tn up ow b tr = (tr ++ pre, ow) /\ ~ loads_ok w
              \/ write_batch w tn up ow b tr = (tr ++ pre ++ [(c, None)], false)
              \/ exists e o,
                   write_batch w tn up ow b tr
                   = (tr ++ pre ++ [(c, Some e); (DumpFile (dump_path tn) b, o)],
                      false))).
Proof.
  destruct ow.
  - right. split; [auto|].
    destruct (@session_write_run w (TableOverwrite tn b) tn b tr eq_refl)
      as (pre & Hw & Hd & Hhd & Hcases).
    exists pre. repeat (split; [assumption|]).
    unfold write_batch, overwrite_table. cbn zeta.
    destruct Hcases as [[[e He] NL]|[He|(e & o & He)]]; rewrite He; eauto.
  - destruct up.
    + left. auto.
    + right. split; [auto|].
      destruct (@session_write_run w (TableAppend tn b) tn b tr eq_refl)
        as (pre & Hw & Hd & Hhd & Hcases).
      exists pre. repeat (split; [assumption|]).
      unfold write_batch, append_table. cbn zeta.
      destruct Hcases as [[[e He] NL]|[He|(e & o & He)]]; rewrite He; eauto.
Qed.

Lemma write_batch_extends w tn up ow b tr :
  exists new, fst (write_batch w tn up ow b tr) = tr ++ new.
Proof.
  destruct (write_batch_cases w tn up ow b tr)
    as [(_ & _ & E)|(_ & pre & _ & _ & _ & [[E _]|[E|(e & o & E)]])];
    rewrite E; simpl; eauto.
  exists []. rewrite app_nil_r. reflexivity.
Qed.

Lemma write_batches_extends w tn up bs :
  forall ow tr, exists new, fst (write_batches w tn up ow bs tr) = tr ++ new.
Proof.
  induction bs as [|b bs IH]; intros ow tr; simpl.
  - exists []. rewrite app_nil_r. reflexivity.
  - destruct (write_batch_extends w tn up ow b tr) as [new1 E1].
    destruct (write_batch w tn up ow b tr) as [tr1 ow1]. simpl in E1. subst tr1.
    destruct (IH ow1 (tr ++ new1)) as [new2 E2].
    exists (new1 ++ new2). rewrite E2, app_assoc. reflexivity.
Qed.

(** When loading never raises, the batches are written in order: the
    first by an overwrite when the flag is set, all the others by an
    append. *)
Lemma write_batches_routing w tn :
  loads_ok w ->
  forall bs ow tr,
    writes (new_events tr (fst (write_batches w tn false ow bs tr)))
    = match bs with
      | [] => []
      | b :: bs' =>
          (if ow then TableOverwrite tn b else TableAppend tn b)
            :: map (TableAppend tn) bs'
      end.
Proof.
  intros Hl bs. induction bs as [|b bs IH]; intros ow tr.
  - simpl. unfold new_events. rewrite skipn_all. reflexivity.
  - simpl.
    destruct (write_batch_cases w tn false ow b tr)
      as [(_ & Hup & _)|(_ & pre & Hw & _ & _ & Hc)]; [discriminate|].
    destruct Hc as [[_ NL]|Hc]; [exfalso; auto|].
    assert (G : exists new1,
               write_batch w tn false ow b tr = (tr ++ new1, false)
               /\ writes new1
                  = [if ow then TableOverwrite tn b else TableAppend tn b]).
    { destruct Hc as [E|(e & o & E)]; rewrite E; eexists; (split; [reflexivity|]);
        rewrite writes_app, Hw; destruct ow; reflexivity. }
    destruct G as (new1 & E1 & W1). rewrite E1.
    destruct (write_batches_extends w tn false bs false (tr ++ new1))
      as [new2 E2].
    specialize (IH false (tr ++ new1)). rewrite E2 in IH |- *.
    rewrite new_events_app in IH.
    rewrite <- app_assoc, new_events_app, writes_app, W1, IH.
    destruct bs; reflexivity.
Qed.

Lemma write_batch_starts_with_load w tn up ow b tr :
  ow = true \/ up = false ->
  exists o more,
    fst (write_batch w tn up ow b tr) = tr ++ (LoadTable tn, o) :: more.
Proof.
  intros Hflags.
  destruct (write_batch_cases w tn up ow b tr)
    as [(How & Hup & _)|(_ & pre & _ & _ & (o & rest & Hpre) & Hc)].
  - destruct Hflags; congruence.
  - subst pre. cbn zeta in Hc.
    destruct Hc as [[E _]|[E|(e & o' & E)]]; rewrite E; simpl; eauto.
Qed.

(** *** Default access mode and write routing *)

(** C3, as the code has it.  A target descriptor without an access mode
    resolves to [OVERWRITE]; under it, when loading the destination table
    does not raise, the first batch is written by an overwrite and every
    later batch by an append. *)
Theorem default_access_mode_is_overwrite :
  forall validate spec r,
    Rdb.init validate spec = Ok r ->
    target_access_mode (spec_target spec) = None ->
    exists tgt,
      target r = Ok tgt
      /\ access_mode tgt = OVERWRITE
      /\ forall w tn b bs tr,
           loads_ok w ->
           writes (new_events tr
                     (fst (write_batches w tn
                             (AccessMode_eqb (access_mode tgt) UPSERT)
                             (AccessMode_eqb (access_mode tgt) OVERWRITE)
                             (b :: bs) tr)))
           = TableOverwrite tn b :: map (TableAppend tn) bs.
Proof.
  intros validate spec r Hinit Hnone.
  destruct (init_names _ _ Hinit) as (Hs & _).
  unfold target. rewrite Hs, Hnone. simpl.
  eexists. split; [reflexivity|]. split; [reflexivity|].
  intros w tn b bs tr Hl. simpl.
  apply (@write_batches_routing w tn Hl (b :: bs) true tr).
Qed.

Lemma default_access_mode_is_overwrite_witness :
  exists r tgt,
    Rdb.init (fun _ => true) spec_orders = Ok r
    /\ target r = Ok tgt
    /\ access_mode tgt = OVERWRITE
    /\ writes (fst (write_batches w_ok "lake.orders"
                      (AccessMode_eqb (access_mode tgt) UPSERT)
                      (AccessMode_eqb (access_mode tgt) OVERWRITE)
                      [orders_batch [101; 102; 103]%Z; orders_batch [104]%Z] []))
       = [TableOverwrite "lake.orders" (orders_batch [101; 102; 103]%Z);
          TableAppend "lake.orders" (orders_batch [104]%Z)].
Proof.
  destruct (Rdb.init (fun _ => true) spec_orders) as [r|e] eqn:E;
    [|vm_compute in E; discriminate].
  destruct (default_access_mode_is_overwrite _ _ E eq_refl)
    as (tgt & Ht & Hm & Hw).
  exists r, tgt. split; [reflexivity|]. split; [exact Ht|]. split; [exact Hm|].
  assert (Hl : loads_ok w_ok) by (intros tr i; reflexivity).
  exact (Hw w_ok "lake.orders"%string _ _ [] Hl).
Defined.

(** With the access mode left out, the first write of a table is an
    overwrite, not an append. *)
Lemma default_access_mode_not_append :
  target_access_mode (spec_target spec_orders) = None
  /\ ~ Forall (fun c => is_append c = true)
         (writes (fst (fst (main res0 db0 w_ok [spec_orders])))).
Proof.
  split; [reflexivity|].
  intros H. vm_compute in H. inversion H as [|c l Hc _]. discriminate Hc.
Qed.

(** C5, at an [OVERWRITE] table of three batches whose first session call
    raises before the data is written: the flag [overwrite] stays set,
    the second batch is written by an overwrite, and the first batch by
    nothing. *)
Theorem overwrite_repeated_after_raise :
  writes (fst (fst (main res0 db0 w_first_call_fails [spec_orders_overwrite])))
  = [TableOverwrite "lake.orders" (orders_batch [104; 105; 106]%Z);
     TableAppend "lake.orders" (orders_batch [107]%Z)].
Proof. vm_compute. reflexivity. Qed.

(** *** Failed writes *)

(** C4. When the write of a batch raises after the table has been loaded
    or created, the batch is dumped to the file of its table exactly
    once, the session method returns without raising, and the loop goes
    on to the next batch, whose table it loads next. *)
Theorem write_failure_is_dumped_once :
  forall w tn up ow b rest tr,
    up && ow = false ->
    write_failed (new_events tr (fst (write_batch w tn up ow b tr))) ->
    dumps (new_events tr (fst (write_batch w tn up ow b tr)))
    = [DumpFile (dump_path tn) b]
    /\ snd ((if ow then overwrite_table w tn b else append_table w tn b) tr)
       = Ok tt
    /\ write_batches w tn up ow (b :: rest) tr
       = write_batches w tn up false rest (fst (write_batch w tn up ow b tr))
    /\ (forall nxt rest',
          rest = nxt :: rest' ->
          exists o more,
            fst (write_batches w tn up ow (b :: rest) tr)
            = fst (write_batch w tn up ow b tr) ++ (LoadTable tn, o) :: more).
Proof.
  intros w tn up ow b rest tr Hflags Hfail.
  assert (Hup : ow = false -> up = true -> False).
  { intros -> ->. revert Hfail. unfold write_batch, upsert_table, ret. simpl.
    unfold new_events. rewrite skipn_all. intros (c & e & [] & _). }
  assert (K : exists pre e o,
             writes pre = [] /\ dumps pre = []
             /\ (if ow then overwrite_table w tn b else append_table w tn b) tr
                = (tr ++ pre ++ [(if ow then TableOverwrite tn b
                                  else TableAppend tn b, Some e);
                                 (DumpFile (dump_path tn) b, o)], Ok tt)
             /\ up = false).
  { destruct ow.
    - destruct up; [discriminate|].
      destruct (@session_write_run w (TableOverwrite tn b) tn b tr eq_refl)
        as (pre & Hw & Hd & _ & Hc).
      revert Hfail. unfold write_batch, overwrite_table.
      destruct Hc as [[[e He] _]|[He|(e & o & He)]]; rewrite He; simpl;
        rewrite ?new_events_app; intros Hfail.
      + exfalso. exact (no_writes_not_failed Hw Hfail).
      + exfalso. apply write_failed_app in Hfail. destruct Hfail as [F|F].
        * exact (no_writes_not_failed Hw F).
        * destruct F as (c & e & [F|[]] & _). discriminate.
      + exists pre, e, o. auto.
    - destruct up; [exfalso; auto|].
      destruct (@session_write_run w (TableAppend tn b) tn b tr eq_refl)
        as (pre & Hw & Hd & _ & Hc).
      revert Hfail. unfold write_batch, append_table.
      destruct Hc as [[[e He] _]|[He|(e & o & He)]]; rewrite He; simpl;
        rewrite ?new_events_app; intros Hfail.
      + exfalso. exact (no_writes_not_failed Hw Hfail).
      + exfalso. apply write_failed_app in Hfail. destruct Hfail as [F|F].
        * exact (no_writes_not_failed Hw F).
        * destruct F as (c & e & [F|[]] & _). discriminate.
      + exists pre, e, o. auto. }
  destruct K as (pre & e & o & Hw & Hd & Hrun & Hupf). subst up.
  assert (Hstep : write_batch w tn false ow b tr
                  = (tr ++ pre ++ [(if ow then TableOverwrite tn b
                                    else TableAppend tn b, Some e);
                                   (DumpFile (dump_path tn) b, o)], false)).
  { unfold write_batch, upsert_table. destruct ow; rewrite Hrun; reflexivity. }
  rewrite Hrun. cbn [write_batches]. rewrite Hstep. cbn [fst snd].
  split.
  { rewrite new_events_app, dumps_app, Hd. destruct ow; reflexivity. }
  split; [reflexivity|]. split; [reflexivity|].
  intros nxt rest' ->. cbn [write_batches].
  destruct (@write_batch_starts_with_load w tn false false nxt
              (tr ++ pre ++ [(if ow then TableOverwrite tn b
                              else TableAppend tn b, Some e);
                             (DumpFile (dump_path tn) b, o)]) (or_intror eq_refl))
    as (o1 & more1 & E1).
  destruct (write_batch w tn false false nxt _) as [tr2 ow2].
  simpl in E1. subst tr2.
  destruct (write_batches_extends w tn false rest' ow2
              ((tr ++ pre ++ [(if ow then TableOverwrite tn b
                               else TableAppend tn b, Some e);
                              (DumpFile (dump_path tn) b, o)])
               ++ (LoadTable tn, o1) :: more1))
    as (new2 & E2).
  rewrite E2. exists o1, (more1 ++ new2).
  rewrite <- app_assoc. reflexivity.
Qed.

Lemma write_failure_is_dumped_once_witness :
  write_failed
    (new_events trace_after_first
       (fst (write_batch w_second_write_fails "lake.orders" false false
                         (orders_batch [104; 105; 106]%Z) trace_after_first)))
  /\ dumps
       (new_events trace_after_first
          (fst (write_batch w_second_write_fails "lake.orders" false false
                            (orders_batch [104; 105; 106]%Z) trace_after_first)))
     = [DumpFile "debug/lake.orders_error_sample.json"
                 (orders_batch [104; 105; 106]%Z)]
  /\ exists o more,
       fst (write_batches w_second_write_fails "lake.orders" false false
              [orders_batch [104; 105; 106]%Z; orders_batch [107]%Z]
              trace_after_first)
       = fst (write_batch w_second_write_fails "lake.orders" false false
                          (orders_batch [104; 105; 106]%Z) trace_after_first)
         ++ (LoadTable "lake.orders", o) :: more.
Proof.
  assert (Hfail : write_failed
            (new_events trace_after_first
               (fst (write_batch w_second_write_fails "lake.orders" false false
                       (orders_batch [104; 105; 106]%Z) trace_after_first)))).
  { exists (TableAppend "lake.orders" (orders_batch [104; 105; 106]%Z)).
    exists (OtherError "commit failed").
    split; [vm_compute; auto|reflexivity]. }
  split; [exact Hfail|].
  destruct (@write_failure_is_dumped_once w_second_write_fails "lake.orders"
              false false (orders_batch [104; 105; 106]%Z)
              [orders_batch [107]%Z] trace_after_first eq_refl Hfail)
    as (D & _ & _ & N).
  split; [exact D|]. exact (N _ _ eq_refl).
Defined.

(** *** Tables without matching rows *)

(** C7. When the pre-scan counts no row, no batch is produced, the table
    makes no write on the destination, and its spec, cursor value
    included, is left as it was. *)
Theorem no_rows_no_writes :
  forall res db w spec t tv tr,
    Postgres.init res db spec = Ok t ->
    count_reply db (table_info_query (rdb t)) = Ok (Some (PyInt 0, tv)) ->
    yielded (get_batches db t) = []
    /\ after (get_batches db t) = t
    /\ writes (new_events tr (fst (fst (replicate_table res db w spec tr)))) = []
    /\ snd (fst (replicate_table res db w spec tr)) = spec.
Proof.
  intros res db w spec t tv tr Hinit Hcount.
  assert (G : get_batches db t = mkExtraction [] t NoRecord).
  { unfold get_batches, get_table_info. rewrite Hcount. reflexivity. }
  rewrite G. split; [reflexivity|]. split; [reflexivity|].
  assert (Hnil : new_events tr tr = []).
  { unfold new_events. apply skipn_all. }
  unfold replicate_table. rewrite Hinit.
  destruct (target (rdb t)) as [tgt|e]; [|simpl; rewrite Hnil; auto].
  destruct (AccessMode_eqb (access_mode tgt) REPLACE).
  - destruct (recreate_table_run w
                (namespace tgt ++ "." ++ name tgt)%string (pa_schema t) tr)
      as (o1 & o2 & E).
    destruct (recreate_table w _ (pa_schema t) tr) as [tr1 [u|e]];
      simpl in E; subst tr1; rewrite ?G; simpl;
      rewrite new_events_app; split; try reflexivity.
    apply (init_spec _ _ _ Hinit).
  - unfold ret. rewrite G. simpl. rewrite Hnil. split; [reflexivity|].
    apply (init_spec _ _ _ Hinit).
Qed.

Lemma no_rows_no_writes_witness :
  exists t,
    Postgres.init res0 db_empty spec_orders_replace = Ok t
    /\ yielded (get_batches db_empty t) = []
    /\ writes (fst (fst (replicate_table res0 db_empty w_ok
                                         spec_orders_replace []))) = []
    /\ cursor_value (snd (fst (replicate_table res0 db_empty w_ok
                                               spec_orders_replace [])))
       = Some (PyInt 100).
Proof.
  destruct (Postgres.init res0 db_empty spec_orders_replace) as [t|e] eqn:E;
    [|vm_compute in E; discriminate].
  exists t. split; [reflexivity|].
  destruct (@no_rows_no_writes res0 db_empty w_ok spec_orders_replace t
              PyNone [] E eq_refl) as (Y & _ & W & S).
  split; [exact Y|]. split; [exact W|]. rewrite S. reflexivity.
Defined.

(** *** The cursor value of an incremental table *)

Lemma replicate_table_spec res db w spec tr tr' spec' :
  replicate_table res db w spec tr = (tr', spec', Ok tt) ->
  spec' = spec_after res db spec.
Proof.
  unfold replicate_table, spec_after.
  destruct (Postgres.init res db spec) as [t|e]; [|discriminate].
  destruct (target (rdb t)) as [tgt|e]; [|discriminate].
  destruct ((if AccessMode_eqb (access_mode tgt) REPLACE
             then recreate_table w _ (pa_schema t) else ret tt) tr)
    as [tr1 [u|e]]; [|discriminate].
  intros H. inversion H. reflexivity.
Qed.

(** A run that completes writes back, for each table, the spec its
    extraction left. *)
Lemma replicate_tables_persisted res db w tables :
  forall tr tr' persisted,
    replicate_tables res db w tables tr = (tr', persisted, Ok tt) ->
    persisted = map (spec_after res db) tables.
Proof.
  induction tables as [|spec rest IH]; intros tr tr' persisted; simpl.
  - intros H. inversion H. reflexivity.
  - destruct (replicate_table res db w spec tr) as [[tr1 spec1] [u|e]] eqn:E1;
      [|discriminate].
    destruct u. apply replicate_table_spec in E1.
    destruct (replicate_tables res db w rest tr1) as [[tr2 rest2] r2] eqn:E2.
    intros H. inversion H; subst. f_equal. eapply IH. exact E2.
Qed.

Lemma cursor_value_set spec v :
  spec_cursor spec <> None -> cursor_value (set_cursor_value spec v) = Some v.
Proof.
  unfold cursor_value, set_cursor_value.
  destruct (spec_cursor spec); [reflexivity|congruence].
Qed.

(** C1, as the code has it.  When the streaming of an incremental table
    finishes, that is, the pre-scan counted at least one row and the
    stream was read to its end without an error, the cursor value of the
    spec is the value the pre-scan computed, whatever the rows streamed;
    and a run that completes writes that value to the configuration. *)
Theorem cursor_advances_to_prescan_value :
  forall res db spec t info,
    Postgres.init res db spec = Ok t ->
    is_incremental (rdb t) = true ->
    get_table_info db t = Some info ->
    ending (get_batches db t) = Finished ->
    cursor_value (tbl_spec (rdb (after (get_batches db t))))
    = Some (target_value info)
    /\ forall w pre post tr persisted,
         main res db w (pre ++ spec :: post) = (tr, persisted, Ok tt) ->
         exists spec',
           nth_error persisted (List.length pre) = Some spec'
           /\ cursor_value spec' = Some (target_value info).
Proof.
  intros res db spec t info Hinit Hinc Hinfo Hend.
  assert (G : cursor_value (tbl_spec (rdb (after (get_batches db t))))
              = Some (target_value info)).
  { revert Hend. unfold get_batches. rewrite Hinfo.
    destruct (PyVal_eqb (size info) (PyInt 0)); [discriminate|].
    destruct (query (rdb t)) as [q|e]; [|discriminate].
    destruct (stream_reply db q) as [cur|e]; [|discriminate].
    destruct (stream_loop (pa_schema t) (batch_size (rdb t)) cur)
      as [batches [|e]]; [|discriminate].
    rewrite Hinc. intros _. simpl. apply cursor_value_set.
    revert Hinc. unfold is_incremental.
    destruct (spec_cursor (tbl_spec (rdb t))); [discriminate|congruence]. }
  split; [exact G|].
  intros w pre post tr persisted Hmain.
  apply replicate_tables_persisted in Hmain. subst persisted.
  exists (spec_after res db spec). split.
  - rewrite map_app, nth_error_app2; rewrite length_map; [|lia].
    rewrite Nat.sub_diag. reflexivity.
  - unfold spec_after. rewrite Hinit. exact G.
Qed.

Lemma cursor_advances_to_prescan_value_witness :
  exists t,
    Postgres.init res0 db_late spec_orders = Ok t
    /\ map num_rows (yielded (get_batches db_late t)) = [3; 3; 1]
    /\ cursor_value (tbl_spec (rdb (after (get_batches db_late t))))
       = Some (PyInt 105)
    /\ option_map cursor_value
         (nth_error (snd (fst (main res0 db_late w_ok [spec_orders]))) 0)
       = Some (Some (PyInt 105)).
Proof.
  destruct (Postgres.init res0 db_late spec_orders) as [t|e] eqn:E;
    [|vm_compute in E; discriminate].
  exists t. split; [reflexivity|].
  pose proof E as E'. vm_compute in E'. inversion E' as [Et]. clear E'.
  rewrite Et.
  assert (Hinc : is_incremental (rdb t) = true) by (rewrite <- Et; reflexivity).
  assert (Hend : ending (get_batches db_late t) = Finished)
    by (rewrite <- Et; reflexivity).
  destruct (@cursor_advances_to_prescan_value res0 db_late spec_orders t
              (mkTableInfo (PyInt 5) (PyInt 105)) E Hinc eq_refl Hend)
    as [G M].
  split; [rewrite <- Et; reflexivity|]. split; [exact G|].
  destruct (main res0 db_late w_ok [spec_orders]) as [[tr persisted] r] eqn:Em.
  assert (Hr : r = Ok tt).
  { pose proof (f_equal snd Em) as Hs. simpl in Hs. rewrite <- Hs.
    vm_compute. reflexivity. }
  subst r. destruct (M w_ok [] [] tr persisted Em) as (spec' & Hn & Hc).
  simpl in Hn. simpl. rewrite Hn. simpl. rewrite Hc. reflexivity.
Defined.

(** An incremental table without a new row: its batch sequence ends
    without an error, and its cursor value stays at the value of the
    configuration, which is not the one of the pre-scan. *)
Lemma cursor_kept_when_no_row :
  match Postgres.init res0 db_empty spec_orders with
  | Ok t =>
      is_incremental (rdb t) = true
      /\ get_table_info db_empty t = Some (mkTableInfo (PyInt 0) PyNone)
      /\ yielded (get_batches db_empty t) = []
      /\ ending (get_batches db_empty t) = NoRecord
      /\ cursor_value (tbl_spec (rdb (after (get_batches db_empty t))))
         = Some (PyInt 100)
      /\ cursor_value (tbl_spec (rdb (after (get_batches db_empty t))))
         <> Some PyNone
  | Raise _ => False
  end.
Proof.
  vm_compute. repeat split. discriminate.
Qed.

(* ------------------------------------------------------------------ *)
(** ** Further properties *)
(* ------------------------------------------------------------------ *)

Open Scope string_scope.

(** *** Access modes *)

Lemma AccessMode_of_name_inv (n : string) (m : AccessMode) :
  AccessMode_of_name n = Some m <-> n = AccessMode_name m.
Proof.
  unfold AccessMode_of_name. split.
  - repeat (match goal with
            | |- context [String.eqb n ?k] =>
                destruct (String.eqb_spec n k) as [->|?]
            end; [intros H; inversion H; reflexivity|]).
    discriminate.
  - intros ->. destruct m; reflexivity.
Qed.

(** X1. [access_mode_from_string] reads the name of a member whatever
    its case: it returns the member whose name is the string in upper
    case, in particular each member from its own name in lower case, and
    raises [ValueError], with the string as given, when no member has
    that name. *)
Theorem access_mode_from_string_by_name :
  forall mode,
    (forall m, access_mode_from_string mode = Ok m
               <-> upper mode = AccessMode_name m)
    /\ (forall m, access_mode_from_string (lower (AccessMode_name m)) = Ok m)
    /\ ((forall m, upper mode <> AccessMode_name m) ->
        access_mode_from_string mode
        = Raise (ValueError ("Invalid access mode string " ++ mode))).
Proof.
  intros mode. split; [|split].
  - intros m. unfold access_mode_from_string.
    destruct (AccessMode_of_name (upper mode)) as [m'|] eqn:E.
    + apply AccessMode_of_name_inv in E. split.
      * intros H. inversion H; subst. exact E.
      * intros H. rewrite H in E. destruct m, m'; try discriminate; reflexivity.
    + split; [discriminate|].
      intros H. apply AccessMode_of_name_inv in H. congruence.
  - intros m. destruct m; reflexivity.
  - intros H. unfold access_mode_from_string.
    destruct (AccessMode_of_name (upper mode)) as [m|] eqn:E; [|reflexivity].
    apply AccessMode_of_name_inv in E. exfalso. exact (H m E).
Qed.

Lemma access_mode_from_string_by_name_witness :
  access_mode_from_string "Append" = Ok APPEND
  /\ access_mode_from_string "merge"
     = Raise (ValueError "Invalid access mode string merge").
Proof.
  split.
  - apply (access_mode_from_string_by_name "Append"). reflexivity.
  - apply (access_mode_from_string_by_name "merge").
    intros m; destruct m; discriminate.
Defined.

(** *** Names without outer white space *)

Lemma lstrip_head s c rest : lstrip s = String c rest -> isspace c = false.
Proof.
  induction s as [|a s IH]; simpl; [discriminate|].
  destruct (isspace a) eqn:E; [exact IH|].
  intros H. inversion H; subst. exact E.
Qed.

Lemma rstrip_head s c rest :
  rstrip s = String c rest -> exists rest', s = String c rest'.
Proof.
  destruct s as [|a s]; simpl; [discriminate|].
  destruct (rstrip s); [destruct (isspace a); [discriminate|]|];
    intros H; inversion H; subst; eauto.
Qed.

Lemma append_last_inv front c a s :
  String a s = front ++ String c EmptyString ->
  (s = EmptyString /\ a = c /\ front = EmptyString)
  \/ exists front', front = String a front' /\ s = front' ++ String c EmptyString.
Proof.
  destruct front as [|b front]; simpl; intros H; inversion H; subst.
  - left. auto.
  - right. eauto.
Qed.

Lemma rstrip_last s front c :
  rstrip s = front ++ String c EmptyString -> isspace c = false.
Proof.
  revert front. induction s as [|a s IH]; intros front; simpl.
  - destruct front; discriminate.
  - destruct (rstrip s) as [|b r] eqn:E.
    + destruct (isspace a) eqn:Ea.
      * destruct front; discriminate.
      * intros H. apply append_last_inv in H.
        destruct H as [(_ & -> & _)|(front' & _ & H)]; [exact Ea|].
        destruct front'; discriminate.
    + intros H. apply append_last_inv in H.
      destruct H as [(H & _)|(front' & _ & H)]; [discriminate|].
      eapply IH. exact H.
Qed.

Lemma strip_trimmed s : trimmed (strip s).
Proof.
  unfold trimmed, strip. split.
  - intros c rest H. apply rstrip_head in H. destruct H as [rest' H].
    eapply lstrip_head. exact H.
  - intros front c H. eapply rstrip_last. exact H.
Qed.

(** X2. The namespace, the name and the filter expression of a table
    object have no white space at either end, whatever the spec has
    around them. *)
Theorem init_names_trimmed :
  forall validate spec r,
    Rdb.init validate spec = Ok r ->
    trimmed (tbl_namespace r) /\ trimmed (tbl_name r)
    /\ trimmed (tbl_filter_exp r).
Proof.
  intros validate spec r. unfold Rdb.init.
  destruct (negb (validate spec)); [discriminate|].
  intros H. inversion H; subst; simpl.
  split; [apply strip_trimmed|]. split; [apply strip_trimmed|].
  destruct (spec_filter_exp spec); [apply strip_trimmed|].
  split; [discriminate|intros front c E; destruct front; discriminate].
Qed.

Lemma init_names_trimmed_witness :
  exists r,
    Rdb.init (fun _ => true) spec_orders = Ok r
    /\ tbl_namespace r = "public" /\ tbl_name r = "orders"
    /\ trimmed (tbl_namespace r) /\ trimmed (tbl_name r).
Proof.
  destruct (Rdb.init (fun _ => true) spec_orders) as [r|e] eqn:E;
    [|vm_compute in E; discriminate].
  exists r. split; [reflexivity|].
  destruct (init_names_trimmed _ _ E) as (H1 & H2 & _).
  vm_compute in E. inversion E; subst. simpl. auto.
Defined.

(** *** The two schemas of a resolved table *)

Lemma map_columns_aligned reserved mappings rows pgs pas :
  map_columns reserved mappings rows = Ok (pgs, pas) ->
  map fst pas = map column_name rows
  /\ map snd pgs = map udt_name rows.
Proof.
  revert pgs pas. induction rows as [|row rows IH]; intros pgs pas; simpl.
  - intros H. inversion H. auto.
  - destruct (map_column reserved mappings row) as [[pg pa]|] eqn:E1;
      simpl; [|discriminate].
    destruct (map_columns reserved mappings rows) as [[pgs' pas']|];
      simpl; [|discriminate].
    intros H. inversion H; subst; clear H.
    destruct (IH _ _ eq_refl) as [I1 I2].
    assert (Hrow : fst pa = column_name row /\ snd pg = udt_name row).
    { revert E1. unfold map_column.
      match goal with
      | |- bind ?x _ = _ -> _ => destruct x as [[cn ty]|]
      end; simpl; [|discriminate].
      intros H. inversion H. auto. }
    destruct Hrow as [R1 R2]. simpl. rewrite R1, R2, I1, I2. auto.
Qed.

(** X3. A resolved table has one PyArrow field for each column the
    catalog returned, in the order of the catalog and under the name the
    catalog gives, not the escaped one, and one source expression for each
    field, with the type the catalog gives. *)
Theorem resolved_schemas_aligned :
  forall res db spec t,
    Postgres.init res db spec = Ok t ->
    exists r0 rows,
      Rdb.init (validate_spec res) spec = Ok r0
      /\ columns_reply db (columns_query r0) = Ok rows
      /\ map fst (pa_schema t) = map column_name rows
      /\ map snd (tbl_schema (rdb t)) = map udt_name rows
      /\ List.length (tbl_schema (rdb t)) = List.length (pa_schema t).
Proof.
  intros res db spec t. unfold Postgres.init, update_table_spec.
  destruct (Rdb.init (validate_spec res) spec) as [r0|]; simpl; [|discriminate].
  destruct (pg_pa_dt_mapping res) as [mappings|]; [|discriminate]. simpl.
  destruct (columns_reply db (columns_query r0)) as [rows|] eqn:C;
    simpl; [|discriminate].
  destruct (map_columns _ mappings rows) as [[pgs pas]|] eqn:M;
    simpl; [|discriminate].
  intros H. inversion H; subst; clear H.
  destruct (map_columns_aligned _ _ _ M) as [A1 A2].
  exists r0, rows. split; [reflexivity|]. split; [exact C|]. simpl.
  assert (S : tbl_schema
                match spec_cursor (tbl_spec r0) with
                | Some c => set_cursor_exp (set_schema r0 pgs) (cursor_expression c)
                | None => set_schema r0 pgs
                end = pgs).
  { destruct (spec_cursor (tbl_spec r0)); reflexivity. }
  rewrite S. split; [exact A1|]. split; [exact A2|].
  rewrite <- (length_map snd pgs), A2, <- (length_map fst pas), A1.
  rewrite !length_map. reflexivity.
Qed.

Lemma resolved_schemas_aligned_witness :
  exists t,
    Postgres.init res0 db0 spec_orders = Ok t
    /\ map fst (pa_schema t) = ["id"; "select"; "created_on"]
    /\ List.length (tbl_schema (rdb t)) = List.length (pa_schema t).
Proof.
  destruct (Postgres.init res0 db0 spec_orders) as [t|e] eqn:E;
    [|vm_compute in E; discriminate].
  exists t. split; [reflexivity|].
  destruct (resolved_schemas_aligned _ _ _ E)
    as (r0 & rows & _ & C & A1 & _ & L).
  split; [|exact L].
  rewrite A1. simpl in C. inversion C. reflexivity.
Defined.

(** *** Columns that cannot be resolved *)




(** *** Streams that break *)

(** X5. A stream that raises at iteration [k] yields the first [k]
    batches of the stream that does not raise, and ends by exhaustion
    exactly when that stream has fewer than [k] batches: the batches
    yielded before a failure are those of a complete extraction, in
    order. *)
Theorem fault_keeps_prefix :
  forall schema b k cur,
    fst (stream_loop schema b (with_fault cur (Some k)))
    = firstn k (fst (stream_loop schema b (with_fault cur None)))
    /\ (snd (stream_loop schema b (with_fault cur (Some k))) = Exhausted
        <-> List.length (fst (stream_loop schema b (with_fault cur None))) < k).
Proof.
  intros schema b k. induction k as [|k IH]; intros cur.
  - rewrite (stream_loop_unfold schema b (with_fault cur (Some 0))).
    unfold fetchmany, with_fault. simpl. split; [reflexivity|].
    split; [discriminate|lia].
  - rewrite (stream_loop_unfold schema b (with_fault cur (Some (S k)))).
    rewrite (stream_loop_unfold schema b (with_fault cur None)).
    unfold fetchmany, with_fault. cbn [fault pending description option_map Nat.pred].
    destruct (firstn b (pending cur)) as [|r rows].
    + simpl. split; [reflexivity|]. split; [lia|reflexivity].
    + specialize (IH (mkServerCursor (description cur)
                                     (skipn b (pending cur)) None)).
      unfold with_fault in IH. cbn [fault pending description] in IH.
      destruct IH as [I1 I2]. unfold yield. cbn [fst snd].
      rewrite I1. split; [reflexivity|].
      rewrite I2. simpl. lia.
Qed.

(** *** The batches of an extraction *)

Lemma stream_loop_batches schema b :
  forall n cur,
    List.length (pending cur) <= n ->
    Forall (fun bt => batch_schema bt = schema
                      /\ 1 <= num_rows bt /\ num_rows bt <= b)
           (fst (stream_loop schema b cur)).
Proof.
  intros n. induction n as [|n IH]; intros cur Hn;
    rewrite stream_loop_unfold; unfold fetchmany;
    destruct (fault cur) as [[|k]|];
    try (simpl; constructor);
    (destruct (firstn b (pending cur)) as [|r rows] eqn:F;
     [simpl; constructor|]).
  all: assert (Hpos : 0 < List.length (pending cur))
         by (destruct (pending cur) eqn:P; [|simpl; lia];
             rewrite firstn_nil in F; discriminate);
       try lia.
  all: assert (Hb : 0 < b) by (destruct b; [discriminate|lia]).
  all: unfold yield; cbn [fst]; constructor;
       [ split; [reflexivity|]; unfold num_rows, decode; cbn [batch_rows];
         rewrite length_map, <- F, length_firstn; simpl; lia
       | apply IH; cbn [pending]; rewrite length_skipn; lia ].
Qed.

(** X6. Every batch an extraction yields is bound to the PyArrow schema
    of its table and has at least one row and at most [batch_size] rows,
    whether the extraction finishes or not. *)
Theorem batches_are_bounded :
  forall db t,
    Forall (fun bt => batch_schema bt = pa_schema t
                      /\ 1 <= num_rows bt /\ num_rows bt <= batch_size (rdb t))
           (yielded (get_batches db t)).
Proof.
  intros db t. unfold get_batches.
  destruct (get_table_info db t) as [info|]; [|constructor].
  destruct (PyVal_eqb (size info) (PyInt 0)); [constructor|].
  destruct (query (rdb t)) as [q|e]; [|constructor].
  destruct (stream_reply db q) as [cur|e]; [|constructor].
  pose proof (@stream_loop_batches (pa_schema t) (batch_size (rdb t))
                (List.length (pending cur)) cur (le_n _)) as H.
  destruct (stream_loop (pa_schema t) (batch_size (rdb t)) cur) as [bs fin].
  simpl in H. destruct fin; [destruct (is_incremental (rdb t))|]; exact H.
Qed.

(** *** When the cursor value changes *)

(** X7. An extraction that does not finish, by an error before or during
    the streaming or by an empty pre-scan, and any extraction of a table
    that is not incremental, leaves the table object, its spec and cursor
    value included, as it was, also after it has yielded batches. *)
Theorem unfinished_extraction_keeps_cursor :
  forall db t,
    ending (get_batches db t) <> Finished \/ is_incremental (rdb t) = false ->
    after (get_batches db t) = t.
Proof.
  intros db t. unfold get_batches.
  destruct (get_table_info db t) as [info|]; [|reflexivity].
  destruct (PyVal_eqb (size info) (PyInt 0)); [reflexivity|].
  destruct (query (rdb t)) as [q|e]; [|reflexivity].
  destruct (stream_reply db q) as [cur|e]; [|reflexivity].
  destruct (stream_loop (pa_schema t) (batch_size (rdb t)) cur) as [bs [|e]];
    [|reflexivity].
  destruct (is_incremental (rdb t)); [|reflexivity].
  simpl. intros [H|H]; [congruence|discriminate].
Qed.

Lemma unfinished_extraction_keeps_cursor_witness :
  exists t,
    Postgres.init res0 db_broken spec_orders = Ok t
    /\ map num_rows (yielded (get_batches db_broken t)) = [3]
    /\ ending (get_batches db_broken t) = Failed (OtherError "fetch failed")
    /\ after (get_batches db_broken t) = t.
Proof.
  destruct (Postgres.init res0 db_broken spec_orders) as [t|e] eqn:E;
    [|vm_compute in E; discriminate].
  exists t. split; [reflexivity|].
  pose proof E as E'. vm_compute in E'. inversion E' as [Et]. clear E'.
  rewrite Et.
  assert (Hend : ending (get_batches db_broken t)
                 = Failed (OtherError "fetch failed"))
    by (rewrite <- Et; reflexivity).
  split; [rewrite <- Et; reflexivity|]. split; [exact Hend|].
  apply unfinished_extraction_keeps_cursor. left. rewrite Hend. discriminate.
Defined.

(** *** Write routing by access mode *)

Open Scope list_scope.

Lemma upsert_writes_nothing w tn bs :
  forall tr, write_batches w tn true false bs tr = (tr, false).
Proof.
  induction bs as [|b bs IH]; intros tr; simpl; [reflexivity|].
  unfold upsert_table, ret. apply IH.
Qed.

(** X8. Under [UPSERT] the loop of [main] makes no call at all on the
    destination, whatever the batches; under [APPEND], [READONLY] and
    [REPLACE] alike, when loading the table does not raise, every batch is
    written by an append, in order. *)
Theorem routing_by_access_mode :
  forall w tn mode bs tr,
    (mode = UPSERT ->
     fst (write_batches w tn (AccessMode_eqb mode UPSERT)
                        (AccessMode_eqb mode OVERWRITE) bs tr) = tr)
    /\ (mode = APPEND \/ mode = READONLY \/ mode = REPLACE ->
        loads_ok w ->
        writes (new_events tr
                  (fst (write_batches w tn (AccessMode_eqb mode UPSERT)
                                      (AccessMode_eqb mode OVERWRITE) bs tr)))
        = map (TableAppend tn) bs).
Proof.
  intros w tn mode bs tr. split.
  - intros ->. simpl. rewrite upsert_writes_nothing. reflexivity.
  - intros Hm Hl.
    assert (E : AccessMode_eqb mode UPSERT = false
                /\ AccessMode_eqb mode OVERWRITE = false).
    { destruct Hm as [->|[->| ->]]; auto. }
    destruct E as [-> ->].
    rewrite (@write_batches_routing w tn Hl bs false tr).
    destruct bs; reflexivity.
Qed.

Lemma routing_by_access_mode_witness :
  fst (write_batches w_ok "lake.orders" (AccessMode_eqb UPSERT UPSERT)
         (AccessMode_eqb UPSERT OVERWRITE)
         [orders_batch [101; 102; 103]%Z; orders_batch [104]%Z] []) = []
  /\ writes (new_events []
       (fst (write_batches w_ok "lake.orders" (AccessMode_eqb READONLY UPSERT)
               (AccessMode_eqb READONLY OVERWRITE)
               [orders_batch [101; 102; 103]%Z; orders_batch [104]%Z] [])))
     = [TableAppend "lake.orders" (orders_batch [101; 102; 103]%Z);
        TableAppend "lake.orders" (orders_batch [104]%Z)].
Proof.
  split.
  - apply (routing_by_access_mode w_ok "lake.orders"%string UPSERT). reflexivity.
  - apply (routing_by_access_mode w_ok "lake.orders"%string READONLY).
    + auto.
    + intros tr i. reflexivity.
Defined.

(** *** Recreating a table *)

(** X9. [recreate_table] calls the drop and then the creation of the
    table whatever the drop does; it returns when the drop returned or
    found no table and the creation returned or found the table, and
    otherwise raises the exception of the creation or, when the creation
    went well, the one of the drop. *)
Theorem recreate_table_outcome :
  forall w table schema tr,
    recreate_table w table schema tr
    = (tr ++ [(DropTable table, w tr (DropTable table));
              (CreateTable table schema,
               w (tr ++ [(DropTable table, w tr (DropTable table))])
                 (CreateTable table schema))],
       match w (tr ++ [(DropTable table, w tr (DropTable table))])
               (CreateTable table schema) with
       | None | Some TableAlreadyExistsError =>
           match w tr (DropTable table) with
           | None | Some NoSuchTableError => Ok tt
           | Some e => Raise e
           end
       | Some e => Raise e
       end).
Proof.
  intros w table schema tr.
  unfold recreate_table, try_finally, try_except, call, ret, raise.
  destruct (w tr (DropTable table)) as [e1|];
    [destruct e1|]; rewrite create_table_run;
    destruct (w _ (CreateTable table schema)) as [[]|];
    rewrite <- app_assoc; reflexivity.
Qed.

(** *** What a session method has done when it returns *)

(** X10. [append_table] and [overwrite_table] return exactly when they
    have called the write of the batch, once; when they raise, they have
    made no write and no dump. *)
Theorem session_returns_iff_written :
  forall w table data tr,
    (snd (append_table w table data tr) = Ok tt
     <-> writes (new_events tr (fst (append_table w table data tr)))
         = [TableAppend table data])
    /\ (snd (overwrite_table w table data tr) = Ok tt
        <-> writes (new_events tr (fst (overwrite_table w table data tr)))
            = [TableOverwrite table data])
    /\ (forall e,
          snd (append_table w table data tr) = Raise e ->
          writes (new_events tr (fst (append_table w table data tr))) = []
          /\ dumps (new_events tr (fst (append_table w table data tr))) = [])
    /\ (forall e,
          snd (overwrite_table w table data tr) = Raise e ->
          writes (new_events tr (fst (overwrite_table w table data tr))) = []
          /\ dumps (new_events tr (fst (overwrite_table w table data tr))) = []).
Proof.
  intros w table data tr.
  destruct (@session_write_run w (TableAppend table data) table data tr eq_refl)
    as (pa & Hwa & Hda & _ & Ha).
  destruct (@session_write_run w (TableOverwrite table data) table data tr
              eq_refl) as (po & Hwo & Hdo & _ & Ho).
  unfold append_table, overwrite_table.
  repeat split.
  - destruct Ha as [[[e He] _]|[He|(e & o & He)]]; rewrite He; simpl;
      [discriminate|intros _..];
      rewrite new_events_app, writes_app, Hwa; reflexivity.
  - destruct Ha as [[[e He] _]|[He|(e & o & He)]]; rewrite He; simpl;
      [|reflexivity..].
    rewrite new_events_app, Hwa. discriminate.
  - destruct Ho as [[[e He] _]|[He|(e & o & He)]]; rewrite He; simpl;
      [discriminate|intros _..];
      rewrite new_events_app, writes_app, Hwo; reflexivity.
  - destruct Ho as [[[e He] _]|[He|(e & o & He)]]; rewrite He; simpl;
      [|reflexivity..].
    rewrite new_events_app, Hwo. discriminate.
  - destruct Ha as [[[e' He] _]|[He|(e' & o & He)]]; rewrite He in *;
      simpl in *; [|discriminate..].
    rewrite new_events_app. exact Hwa.
  - destruct Ha as [[[e' He] _]|[He|(e' & o & He)]]; rewrite He in *;
      simpl in *; [|discriminate..].
    rewrite new_events_app. exact Hda.
  - destruct Ho as [[[e' He] _]|[He|(e' & o & He)]]; rewrite He in *;
      simpl in *; [|discriminate..].
    rewrite new_events_app. exact Hwo.
  - destruct Ho as [[[e' He] _]|[He|(e' & o & He)]]; rewrite He in *;
      simpl in *; [|discriminate..].
    rewrite new_events_app. exact Hdo.
Qed.

(** *** Dump files *)

Lemma append_cancel_r (a b s : string) :
  (a ++ s)%string = (b ++ s)%string -> a = b.
Proof.
  revert b. induction a as [|x a IH]; intros b H.
  - destruct b as [|y b]; [reflexivity|].
    apply (f_equal String.length) in H. simpl in H.
    rewrite length_append in H. lia.
  - destruct b as [|y b].
    + apply (f_equal String.length) in H. simpl in H.
      rewrite length_append in H. lia.
    + simpl in H. inversion H; subst. f_equal. apply IH. assumption.
Qed.

(** X11. The dump file of a table is named after the table: two tables
    have the same dump file only when they have the same name. *)
Theorem dump_path_injective :
  forall a b, dump_path a = dump_path b -> a = b.
Proof.
  intros a b H. unfold dump_path in H. simpl in H.
  inversion H as [H']. apply append_cancel_r in H'. exact H'.
Qed.

Lemma dump_path_injective_witness :
  dump_path "lake.orders" = "debug/lake.orders_error_sample.json"
  /\ ("lake.orders" = "lake.orders")%type.
Proof.
  split; [reflexivity|].
  apply dump_path_injective. reflexivity.
Defined.

(** *** Writes follow loads *)

Lemma last_cons_default {A} (l : list A) :
  forall x d, last (x :: l) d = last l x.
Proof.
  induction l as [|y l IH]; intros x d; [reflexivity|].
  change (last (x :: y :: l) d) with (last (y :: l) d).
  rewrite (IH y d), (IH y x). reflexivity.
Qed.

Lemma guarded_app prev a b :
  guarded prev (a ++ b)
  <-> guarded prev a /\ guarded (last (map Some a) prev) b.
Proof.
  revert prev. induction a as [|ev a IH]; intros prev.
  - simpl. tauto.
  - destruct ev as [c o]. cbn [app guarded map]. rewrite IH.
    rewrite last_cons_default. tauto.
Qed.

Lemma guarded_no_write prev tr :
  Forall (fun ev => write_target (fst ev) = None) tr -> guarded prev tr.
Proof.
  intros H. revert prev. induction H as [|[c o] tr Hc _ IH]; intros prev.
  - exact I.
  - simpl in *. split; [intros i Hi; congruence|apply IH].
Qed.

(** The first [try] makes no write, and ends, when it returns, with a
    load of the table that returned. *)
Lemma load_or_create_shape w table data tr :
  exists pre r,
    load_or_create w table data tr = (tr ++ pre, r)
    /\ Forall (fun ev => write_target (fst ev) = None) pre
    /\ (r = Ok tt -> last (map Some pre) None = Some (LoadTable table, None)).
Proof.
  unfold load_or_create, try_except, seq, call, raise.
  destruct (w tr (LoadTable table)) as [e|].
  - destruct e;
      try (eexists [_], _; split; [reflexivity|];
           split; [repeat constructor|discriminate]).
    rewrite create_table_run.
    destruct (w _ (CreateTable _ _)) as [[]|]; cbn;
      try (destruct (w _ (LoadTable table)) as [?|]);
      rewrite <- ?app_assoc; cbn;
      (eexists _, _; split; [reflexivity|];
       split; [repeat constructor|try discriminate; reflexivity]).
  - eexists [_], _. split; [reflexivity|].
    split; [repeat constructor|reflexivity].
Qed.

Lemma session_guarded w c table data tr :
  write_target c = Some table ->
  exists new,
    fst (seq (load_or_create w table data)
             (fun _ => try_except (call w c) (fun _ => dump_table w table data))
             tr) = tr ++ new
    /\ forall prev, guarded prev new.
Proof.
  intros Hc.
  destruct (load_or_create_shape w table data tr) as (pre & r & E & Hnw & Hlast).
  unfold seq. rewrite E. destruct r as [[]|e].
  - rewrite attempt_run. specialize (Hlast eq_refl).
    destruct (w (tr ++ pre) c) as [e|]; cbn [fst]; rewrite <- app_assoc;
      eexists; (split; [reflexivity|]); intros prev;
      apply guarded_app; (split; [apply guarded_no_write; exact Hnw|]);
      assert (Hl : last (map Some pre) prev = Some (LoadTable table, None))
        by (destruct pre as [|ev pre']; [discriminate Hlast|];
            cbn [map] in *; rewrite last_cons_default in *; exact Hlast);
      rewrite Hl; simpl; repeat split; intros i Hi; congruence.
  - exists pre. split; [reflexivity|].
    intros prev. apply guarded_no_write. exact Hnw.
Qed.

Lemma write_batch_guarded w tn up ow b tr :
  exists new,
    fst (write_batch w tn up ow b tr) = tr ++ new
    /\ forall prev, guarded prev new.
Proof.
  unfold write_batch. destruct ow.
  - destruct (@session_guarded w (TableOverwrite tn b) tn b tr eq_refl)
      as (new & E & G).
    unfold overwrite_table.
    destruct (seq _ _ tr) as [tr' [u|e]]; simpl in *; eauto.
  - destruct up.
    + exists []. unfold upsert_table, ret. simpl. rewrite app_nil_r.
      split; [reflexivity|intros prev; exact I].
    + destruct (@session_guarded w (TableAppend tn b) tn b tr eq_refl)
        as (new & E & G).
      unfold append_table.
      destruct (seq _ _ tr) as [tr' r]; simpl in *; eauto.
Qed.

Lemma write_batches_guarded w tn up bs :
  forall ow tr,
    exists new,
      fst (write_batches w tn up ow bs tr) = tr ++ new
      /\ forall prev, guarded prev new.
Proof.
  induction bs as [|b bs IH]; intros ow tr; simpl.
  - exists []. rewrite app_nil_r. split; [reflexivity|intros prev; exact I].
  - destruct (write_batch_guarded w tn up ow b tr) as (new1 & E1 & G1).
    destruct (write_batch w tn up ow b tr) as [tr1 ow1]. simpl in E1. subst tr1.
    destruct (IH ow1 (tr ++ new1)) as (new2 & E2 & G2).
    exists (new1 ++ new2). rewrite E2, app_assoc. split; [reflexivity|].
    intros prev. apply guarded_app. auto.
Qed.

Lemma replicate_table_guarded res db w spec tr :
  exists new,
    fst (fst (replicate_table res db w spec tr)) = tr ++ new
    /\ forall prev, guarded prev new.
Proof.
  assert (N : exists new : Trace, tr = tr ++ new /\ forall prev, guarded prev new).
  { exists []. rewrite app_nil_r. split; [reflexivity|intros prev; exact I]. }
  unfold replicate_table.
  destruct (Postgres.init res db spec) as [t|e]; [|exact N].
  destruct (target (rdb t)) as [tgt|e]; [|exact N].
  set (tn := (namespace tgt ++ "." ++ name tgt)%string).
  assert (R : exists new1 r,
             (if AccessMode_eqb (access_mode tgt) REPLACE
              then recreate_table w tn (pa_schema t) else ret tt) tr
             = (tr ++ new1, r)
             /\ forall prev, guarded prev new1).
  { destruct (AccessMode_eqb (access_mode tgt) REPLACE).
    - rewrite recreate_table_outcome. eexists _, _. split; [reflexivity|].
      intros prev. apply guarded_no_write. repeat constructor.
    - exists [], (Ok tt). unfold ret. rewrite app_nil_r.
      split; [reflexivity|intros prev; exact I]. }
  destruct R as (new1 & r & E1 & G1). rewrite E1.
  destruct r as [u|e]; [|exists new1; auto].
  destruct (write_batches_guarded w tn
              (AccessMode_eqb (access_mode tgt) UPSERT)
              (yielded (get_batches db t))
              (AccessMode_eqb (access_mode tgt) OVERWRITE) (tr ++ new1))
    as (new2 & E2 & G2).
  cbn [fst]. rewrite E2. exists (new1 ++ new2). rewrite app_assoc.
  split; [reflexivity|]. intros prev. apply guarded_app. auto.
Qed.

Lemma replicate_tables_guarded res db w tables :
  forall tr,
    exists new,
      fst (fst (replicate_tables res db w tables tr)) = tr ++ new
      /\ forall prev, guarded prev new.
Proof.
  induction tables as [|spec rest IH]; intros tr; simpl.
  - exists []. rewrite app_nil_r. split; [reflexivity|intros prev; exact I].
  - destruct (replicate_table_guarded res db w spec tr) as (new1 & E1 & G1).
    destruct (replicate_table res db w spec tr) as [[tr1 spec1] r].
    simpl in E1. subst tr1. destruct r as [u|e]; [|exists new1; auto].
    destruct (IH (tr ++ new1)) as (new2 & E2 & G2).
    destruct (replicate_tables res db w rest (tr ++ new1)) as [[tr2 rest2] r2].
    simpl in *. subst tr2. exists (new1 ++ new2). rewrite app_assoc.
    split; [reflexivity|]. intros prev. apply guarded_app. auto.
Qed.

(** X12. In a run of [main], whatever the configuration, the database
    and the catalog do, a batch is written to a table only directly after
    a load of that table that returned. *)
Theorem writes_follow_loads :
  forall res db w tables,
    guarded None (fst (fst (main res db w tables))).
Proof.
  intros res db w tables. unfold main.
  destruct (replicate_tables_guarded res db w tables []) as (new & E & G).
  rewrite E. simpl. apply G.
Qed.

(** *** A table that raises *)

(** X13. When the replication of a table raises, because the table could
    not be resolved, its access mode is not one, or its recreation
    failed, no batch of it has been written, its spec is unchanged, and
    the run stops there: the tables after it are not replicated and go
    back to the configuration as they were. *)
Theorem run_stops_at_first_raise :
  forall res db w spec rest tr tr1 spec1 e,
    replicate_table res db w spec tr = (tr1, spec1, Raise e) ->
    spec1 = spec
    /\ writes (new_events tr tr1) = []
    /\ replicate_tables res db w (spec :: rest) tr
       = (tr1, spec :: rest, Raise e).
Proof.
  intros res db w spec rest tr tr1 spec1 e H.
  assert (Hnil : new_events tr tr = []).
  { unfold new_events. apply skipn_all. }
  assert (G : spec1 = spec /\ writes (new_events tr tr1) = []).
  { revert H. unfold replicate_table.
    destruct (Postgres.init res db spec) as [t|e0].
    - destruct (target (rdb t)) as [tgt|e1].
      + destruct (AccessMode_eqb (access_mode tgt) REPLACE).
        * rewrite recreate_table_outcome.
          destruct (w tr (DropTable _)) as [[]|];
            destruct (w _ (CreateTable _ _)) as [[]|];
            intros H; inversion H; subst;
            rewrite new_events_app; auto.
        * unfold ret. intros H. inversion H.
      + intros H. inversion H; subst. rewrite Hnil. auto.
    - intros H. inversion H; subst. rewrite Hnil. auto. }
  destruct G as [-> G]. split; [reflexivity|]. split; [exact G|].
  simpl. rewrite H. reflexivity.
Qed.

Lemma run_stops_at_first_raise_witness :
  replicate_table res0 db0 w_ok spec_bad_mode []
  = ([], spec_bad_mode, Raise (ValueError "Invalid access mode string merge"))
  /\ main res0 db0 w_ok [spec_bad_mode; spec_orders]
     = ([], [spec_bad_mode; spec_orders],
        Raise (ValueError "Invalid access mode string merge")).
Proof.
  assert (H : replicate_table res0 db0 w_ok spec_bad_mode []
              = ([], spec_bad_mode,
                 Raise (ValueError "Invalid access mode string merge")))
    by (vm_compute; reflexivity).
  split; [exact H|].
  exact (proj2 (proj2 (@run_stops_at_first_raise res0 db0 w_ok spec_bad_mode
                         [spec_orders] [] [] spec_bad_mode _ H))).
Defined.

(** *** What is written back to the configuration *)

Lemma same_but_cursor_value_refl spec : same_but_cursor_value spec spec.
Proof. unfold same_but_cursor_value. repeat split. Qed.

Lemma set_cursor_value_same spec v :
  same_but_cursor_value spec (set_cursor_value spec v).
Proof.
  unfold same_but_cursor_value, set_cursor_value.
  destruct (spec_cursor spec) eqn:E; simpl; rewrite ?E; repeat split.
Qed.

Lemma get_batches_after db t :
  after (get_batches db t) = t
  \/ exists v, after (get_batches db t) = set_value t v.
Proof.
  unfold get_batches.
  destruct (get_table_info db t) as [info|]; [|auto].
  destruct (PyVal_eqb (size info) (PyInt 0)); [auto|].
  destruct (query (rdb t)) as [q|e]; [|auto].
  destruct (stream_reply db q) as [cur|e]; [|auto].
  destruct (stream_loop (pa_schema t) (batch_size (rdb t)) cur) as [bs [|e]];
    [|auto].
  destruct (is_incremental (rdb t)); simpl; eauto.
Qed.

Lemma replicate_table_same res db w spec tr :
  same_but_cursor_value spec (snd (fst (replicate_table res db w spec tr))).
Proof.
  unfold replicate_table.
  destruct (Postgres.init res db spec) as [t|e] eqn:Hinit;
    [|apply same_but_cursor_value_refl].
  destruct (target (rdb t)) as [tgt|e]; [|apply same_but_cursor_value_refl].
  destruct ((if AccessMode_eqb (access_mode tgt) REPLACE
             then recreate_table w _ (pa_schema t) else ret tt) tr)
    as [tr1 [u|e]]; [|apply same_but_cursor_value_refl].
  cbn [fst snd]. pose proof (init_spec _ _ _ Hinit) as Hs.
  destruct (get_batches_after db t) as [->|[v ->]].
  - rewrite Hs. apply same_but_cursor_value_refl.
  - simpl. rewrite Hs. apply set_cursor_value_same.
Qed.

Lemma replicate_tables_same res db w tables :
  forall tr,
    Forall2 same_but_cursor_value tables
            (snd (fst (replicate_tables res db w tables tr))).
Proof.
  induction tables as [|spec rest IH]; intros tr; simpl; [constructor|].
  pose proof (replicate_table_same res db w spec tr) as S1.
  destruct (replicate_table res db w spec tr) as [[tr1 spec1] [u|e]];
    simpl in S1.
  - specialize (IH tr1).
    destruct (replicate_tables res db w rest tr1) as [[tr2 rest2] r2].
    simpl in *. constructor; assumption.
  - simpl. constructor; [assumption|].
    clear. induction rest; constructor;
      [apply same_but_cursor_value_refl|assumption].
Qed.

(** X14. Whatever happens in a run, the tables written back to the
    configuration are as many as it had, in the same order, and each
    differs from the spec it was at most in the value of its cursor. *)
Theorem write_back_changes_cursor_value_only :
  forall res db w tables,
    Forall2 same_but_cursor_value tables (snd (fst (main res db w tables))).
Proof.
  intros res db w tables. apply replicate_tables_same.
Qed.

(** *** From one run to the next *)




(** *** Overwrites *)

(** X16. In the loop over the batches of a table, whatever the catalog
    does, every write after the first one is an append, and so is the
    first one when the flag [overwrite] is not set: a table is
    overwritten at most once, and before any append. *)
Theorem at_most_one_overwrite :
  forall w tn up bs ow tr,
    match writes (new_events tr (fst (write_batches w tn up ow bs tr))) with
    | [] => True
    | c :: rest =>
        Forall (fun c' => is_append c' = true) rest
        /\ (ow = false -> is_append c = true)
    end.
Proof.
  intros w tn up bs. induction bs as [|b bs IH]; intros ow tr.
  - simpl. unfold new_events. rewrite skipn_all. exact I.
  - cbn [write_batches].
    assert (S : exists new1 ow1,
               write_batch w tn up ow b tr = (tr ++ new1, ow1)
               /\ (writes new1 = [] /\ (ow1 = true -> ow = true)
                   \/ ow1 = false
                      /\ writes new1
                         = [if ow then TableOverwrite tn b
                            else TableAppend tn b])).
    { destruct (write_batch_cases w tn up ow b tr)
        as [(How & Hup & E)|(_ & pre & Hw & _ & _ & Hc)].
      - exists [], false. rewrite app_nil_r. split; [exact E|].
        left. split; [reflexivity|discriminate].
      - cbn zeta in Hc.
        destruct Hc as [[E _]|[E|(e & o & E)]]; rewrite E;
          eexists _, _; (split; [reflexivity|]).
        + left. auto.
        + right. split; [reflexivity|]. rewrite writes_app, Hw.
          destruct ow; reflexivity.
        + right. split; [reflexivity|]. rewrite writes_app, Hw.
          destruct ow; reflexivity. }
    destruct S as (new1 & ow1 & E1 & Hcase). rewrite E1.
    specialize (IH ow1 (tr ++ new1)).
    destruct (write_batches_extends w tn up bs ow1 (tr ++ new1)) as [new2 E2].
    rewrite E2 in IH |- *. rewrite new_events_app in IH.
    rewrite <- app_assoc, new_events_app, writes_app.
    destruct Hcase as [[W1 Hflag]|[-> W1]]; rewrite W1.
    + simpl. destruct (writes new2) as [|c rest]; [exact I|].
      destruct IH as [IH1 IH2]. split; [exact IH1|].
      intros How. apply IH2. destruct ow1; [|reflexivity].
      specialize (Hflag eq_refl). congruence.
    + simpl. split.
      * destruct (writes new2) as [|c rest]; [constructor|].
        destruct IH as [IH1 IH2]. constructor; auto.
      * intros ->. reflexivity.
Qed.

(** *** The cursor and the destination *)

(** X17. The tables a completed run writes back to the configuration
    are those the extractions left, whatever the destination did:
    batches whose write failed and was dumped do not hold the cursor of
    their table back. *)
Theorem write_back_ignores_destination :
  forall res db w tables tr persisted,
    main res db w tables = (tr, persisted, Ok tt) ->
    persisted = map (spec_after res db) tables.
Proof.
  intros res db w tables tr persisted H.
  eapply replicate_tables_persisted. exact H.
Qed.

Lemma write_back_ignores_destination_witness :
  map cursor_value (snd (fst (main res0 db0 w_second_write_fails [spec_orders])))
  = [Some (PyInt 107)]
  /\ dumps (fst (fst (main res0 db0 w_second_write_fails [spec_orders])))
     = [DumpFile "debug/lake.orders_error_sample.json"
                 (orders_batch [104; 105; 106]%Z)].
Proof.
  destruct (main res0 db0 w_second_write_fails [spec_orders])
    as [[tr persisted] r] eqn:E.
  assert (Hr : r = Ok tt).
  { pose proof (f_equal snd E) as Hs. simpl in Hs. rewrite <- Hs.
    vm_compute. reflexivity. }
  subst r. cbn [fst snd].
  rewrite (write_back_ignores_destination _ _ _ _ E).
  split; [vm_compute; reflexivity|].
  pose proof (f_equal (fun x => fst (fst x)) E) as Ht. simpl in Ht.
  rewrite <- Ht. vm_compute. reflexivity.
Defined.

(** *** Reserved keywords that cannot be loaded *)

Lemma update_table_spec_keeps db t t' :
  update_table_spec db t = Ok t' ->
  reserved_keywords t' = reserved_keywords t.
Proof.
  unfold update_table_spec.
  destruct (columns_reply db _); simpl; [|discriminate].
  destruct (map_columns _ _ _) as [[pg pa]|]; simpl; [|discriminate].
  intros H. inversion H. reflexivity.
Qed.

(** X18. When the query of the reserved keywords raises, the table is
    resolved all the same, with no reserved keyword: a column is then
    quoted for a special character only, also when its name is a keyword
    of Postgres. *)
Theorem keywords_failure_is_tolerated :
  forall res db spec e,
    keywords_reply db = Raise e ->
    Postgres.init res db spec
    = Postgres.init res
        (mkDatabase (Ok []) (columns_reply db) (count_reply db) (stream_reply db))
        spec
    /\ forall t,
         Postgres.init res db spec = Ok t ->
         reserved_keywords t = []
         /\ forall column_name,
              (forall c, In c (chars column_name) ->
                         ~ In c (chars special_characters)) ->
              escape_column_name (reserved_keywords t) column_name = column_name.
Proof.
  intros res db spec e Hk. split.
  - unfold Postgres.init. rewrite Hk. reflexivity.
  - intros t Hinit.
    assert (Hr : reserved_keywords t = []).
    { revert Hinit. unfold Postgres.init. rewrite Hk.
      destruct (Rdb.init (validate_spec res) spec); simpl; [|discriminate].
      destruct (pg_pa_dt_mapping res); [|discriminate].
      intros H. apply update_table_spec_keeps in H. exact H. }
    split; [exact Hr|]. intros column_name Hsafe. rewrite Hr.
    unfold escape_column_name.
    destruct (needs_escape [] column_name) eqn:N; [|reflexivity].
    apply needs_escape_must_quote in N.
    destruct N as [[]|(c & Hc & Hs)]. exfalso. exact (Hsafe c Hc Hs).
Qed.

Lemma keywords_failure_is_tolerated_witness :
  exists t,
    Postgres.init res0 db_no_keywords spec_orders = Ok t
    /\ reserved_keywords t = []
    /\ map fst (tbl_schema (rdb t))
       = ["id"; "select";
          "tochar(created_on, 'YYYY-MM-DD')::text as created_on"]%string.
Proof.
  destruct (Postgres.init res0 db_no_keywords spec_orders) as [t|e] eqn:E;
    [|vm_compute in E; discriminate].
  exists t. split; [reflexivity|].
  destruct (@keywords_failure_is_tolerated res0 db_no_keywords spec_orders
              (OtherError "permission denied") eq_refl) as [_ H].
  destruct (H t E) as [Hr _]. split; [exact Hr|].
  vm_compute in E. inversion E; subst. reflexivity.
Defined.

(** *** Why a table is not resolved *)




